(** * Hubble: endpoint table, HTTP comparison and enrichment caches

    A shallow embedding of the Go sources of the Hubble observability
    daemon:
    - package [v1], endpoints: [EqualsByID], [SetFrom], [SyncEndpoints],
      [FindEPs], [updateEndpoint], [UpdateEndpoint], [MarkDeleted] and
      [GetEndpoint];
    - [pkg/api/v1/http.go]: [LooseCompareHTTP].

    Go pointers to endpoints are addresses into an explicit store, so
    that the table (a slice of pointers) and the endpoints the caller
    passes in may alias, as they do in the program.  A method returns
    [None] where the Go code panics on a nil pointer.  The mutex of the
    table is not modelled: every method body runs under the lock, and it
    is its sequential meaning that is embedded here.

    Three parts of the daemon are known from their tests and from the
    specification only: the CIDR label filter and the trace decoder of
    the parser, and the IP cache.  Modules [Labels], [Parser] and
    [IPCache] model them from the specification. *)

From stdpp Require Import base option list strings gmap fin_maps.
From Stdlib Require Import ZArith Strings.Byte Strings.Ascii.

Open Scope Z_scope.

(** ** Scalars *)

(** [time.Time], read as a number of nanoseconds. *)
Definition Time := Z.

(** [net.IP] is a byte slice; [None] is the nil slice. *)
Definition IP := option (list byte).

(** A Go pointer [*Endpoint]: an address of the endpoint store.  An
    address that is not allocated (the nil pointer among them) makes a
    dereference panic. *)
Definition ptr := nat.

Module NetIP.

Fixpoint bytesEqual (a b : list byte) : bool :=
  match a, b with
  | [], [] => true
  | x :: a', y :: b' => Byte.eqb x y && bytesEqual a' b'
  | _, _ => false
  end.

Definition IPv4len : nat := 4.
Definition IPv6len : nat := 16.

Definition v4InV6Prefix : list byte :=
  [x00; x00; x00; x00; x00; x00; x00; x00; x00; x00; xff; xff].

Definition bytes (ip : IP) : list byte := default [] ip.

(** [func (ip IP) Equal(x IP) bool] of Go's package net: equal byte
    slices, or an IPv4 address and its IPv4-in-IPv6 form. *)
Definition Equal (ip x : IP) : bool :=
  let a := bytes ip in
  let b := bytes x in
  if Nat.eqb (length a) (length b) then bytesEqual a b
  else if Nat.eqb (length a) IPv4len && Nat.eqb (length b) IPv6len
  then bytesEqual (take 12 b) v4InV6Prefix && bytesEqual a (drop 12 b)
  else if Nat.eqb (length a) IPv6len && Nat.eqb (length b) IPv4len
  then bytesEqual (take 12 a) v4InV6Prefix && bytesEqual (drop 12 a) b
  else false.

End NetIP.

(** ** The endpoint record *)

(** Modelled from the spec: the declaration of [type Endpoint struct] is
    not among the sources.  Its fields are the ones the methods below
    read and write ([ContainerIDs], [ID], [IPv4], [IPv6], [PodName],
    [PodNamespace], [Deleted]) together with [Created] and [Labels],
    which the data model of the specification lists.  Slices and the
    pointer [Deleted] are options: [None] is Go's nil. *)
Record Endpoint := mkEndpoint {
  Created : Time;
  Deleted : option Time;
  ContainerIDs : option (list string);
  ID : Z;
  IPv4 : IP;
  IPv6 : IP;
  PodName : string;
  PodNamespace : string;
  Labels : option (list string)
}.

Definition set_Deleted (d : option Time) (e : Endpoint) : Endpoint :=
  mkEndpoint (Created e) d (ContainerIDs e) (ID e) (IPv4 e) (IPv6 e)
             (PodName e) (PodNamespace e) (Labels e).

(** [ep.Deleted != nil] *)
Definition isDeleted (e : Endpoint) : bool :=
  match Deleted e with Some _ => true | None => false end.

(** ** Methods of a single endpoint *)

(** [func (e *Endpoint) EqualsByID(o *Endpoint) bool] *)
Definition EqualsByID (e o : Endpoint) : bool :=
  ((ID e =? ID o) && String.eqb (PodName e) "" && String.eqb (PodNamespace e) "")
  || ((ID e =? ID o)
      && String.eqb (PodName e) (PodName o)
      && String.eqb (PodNamespace e) (PodNamespace o)).

(** [func (e *Endpoint) SetFrom(o *Endpoint)]: the value of the receiver
    after the call.  Every assignment reads one field of [o] and writes
    the same field of [e], so the result is the same when [e] and [o] are
    one object (see [SetFrom_self]). *)
Definition SetFrom (e o : Endpoint) : Endpoint :=
  let cids := match ContainerIDs o with Some _ => ContainerIDs o | None => ContainerIDs e end in
  let id := if negb (ID o =? 0) then ID o else ID e in
  let ip4 := match IPv4 o with Some _ => IPv4 o | None => IPv4 e end in
  let ip6 := match IPv6 o with Some _ => IPv6 o | None => IPv6 e end in
  let pod := if negb (String.eqb (PodName o) "") then PodName o else PodName e in
  let ns := if negb (String.eqb (PodNamespace o) "") then PodNamespace o else PodNamespace e in
  mkEndpoint (Created e) (Deleted e) cids id ip4 ip6 pod ns (Labels e).

(** The predicate of the specification's data model, in its words: the
    numeric ids match and either both sides have empty pod name and
    namespace or both pod name and namespace match. *)
Definition sameEndpoint_spec (e o : Endpoint) : bool :=
  (ID e =? ID o)
  && ((String.eqb (PodName e) "" && String.eqb (PodNamespace e) ""
       && String.eqb (PodName o) "" && String.eqb (PodNamespace o) "")
      || (String.eqb (PodName e) (PodName o)
          && String.eqb (PodNamespace e) (PodNamespace o))).

(** ** HTTP records *)

(** Modelled from the spec: the protocol message [pb.HTTP] is generated
    code that is not among the sources; the specification gives it the
    fields code, method, url and protocol, the four that
    [LooseCompareHTTP] reads. *)
Record HTTP := mkHTTP {
  Code : Z;
  Method : string;
  Url : string;
  Protocol : string
}.

(** [func LooseCompareHTTP(a, b *pb.HTTP) bool] *)
Definition LooseCompareHTTP (a b : HTTP) : bool :=
  (Code a =? Code b) && String.eqb (Method a) (Method b)
  && String.eqb (Url a) (Url b) && String.eqb (Protocol a) (Protocol b).

(** ** The endpoint table *)

(** [type Endpoints struct { mutex; eps []*Endpoint }] together with the
    store its pointers point into.  [store] holds every endpoint object
    of the program, the ones the caller owns included. *)
Record Endpoints := mkEndpoints {
  store : gmap ptr Endpoint;
  eps : list ptr
}.

(** The loop of [updateEndpoint]: [Some (Some h)] when a live entry
    matched and was updated in place (the early [return]), [Some None]
    when the loop ran to its end, [None] on a nil dereference. *)
Fixpoint updateEndpoint_loop (h : gmap ptr Endpoint) (updateEp : ptr) (l : list ptr)
  : option (option (gmap ptr Endpoint)) :=
  match l with
  | [] => Some None
  | a :: l' =>
      ep ← h !! a;
      if isDeleted ep then updateEndpoint_loop h updateEp l'
      else
        o ← h !! updateEp;
        if EqualsByID ep o then Some (Some (<[a := SetFrom ep o]> h))
        else updateEndpoint_loop h updateEp l'
  end.

(** [func (es *Endpoints) updateEndpoint(updateEp *Endpoint)] *)
Definition updateEndpoint (es : Endpoints) (updateEp : ptr) : option Endpoints :=
  r ← updateEndpoint_loop (store es) updateEp (eps es);
  Some match r with
       | Some h => mkEndpoints h (eps es)
       | None => mkEndpoints (store es) (eps es ++ [updateEp])
       end.

(** [func (es *Endpoints) UpdateEndpoint(updateEp *Endpoint)] *)
Definition UpdateEndpoint (es : Endpoints) (updateEp : ptr) : option Endpoints :=
  updateEndpoint es updateEp.

(** The inner loop of [SyncEndpoints]: the value of [found] for the
    tracked endpoint at [a]. *)
Fixpoint sync_found (h : gmap ptr Endpoint) (a : ptr) (newEps : list ptr) : option bool :=
  match newEps with
  | [] => Some false
  | u :: rest =>
      ep ← h !! a;
      updatedEp ← h !! u;
      if EqualsByID ep updatedEp then Some true else sync_found h a rest
  end.

(** The first loop of [SyncEndpoints].  [now k] is what the [k]-th call
    of [time.Now()] made by this run returns. *)
Fixpoint sync_mark (now : nat → Time) (k : nat) (h : gmap ptr Endpoint)
    (newEps : list ptr) (l : list ptr) : option (gmap ptr Endpoint) :=
  match l with
  | [] => Some h
  | a :: l' =>
      ep ← h !! a;
      if isDeleted ep then sync_mark now k h newEps l'
      else
        found ← sync_found h a newEps;
        if found : bool then sync_mark now k h newEps l'
        else sync_mark now (S k) (<[a := set_Deleted (Some (now k)) ep]> h) newEps l'
  end.

(** The second loop of [SyncEndpoints]. *)
Fixpoint sync_update (es : Endpoints) (newEps : list ptr) : option Endpoints :=
  match newEps with
  | [] => Some es
  | updatedEp :: rest => es' ← updateEndpoint es updatedEp; sync_update es' rest
  end.

(** [func (es *Endpoints) SyncEndpoints(newEps []*Endpoint)] *)
Definition SyncEndpoints (now : nat → Time) (es : Endpoints) (newEps : list ptr)
  : option Endpoints :=
  match newEps with
  | [] => Some es
  | _ :: _ =>
      h ← sync_mark now 0 (store es) newEps (eps es);
      sync_update (mkEndpoints h (eps es)) newEps
  end.

(** The condition of [FindEPs] on one entry. *)
Definition findMatch (epID : Z) (namespace podName : string) (ep : Endpoint) : bool :=
  (negb (epID =? 0) && (ID ep =? epID))
  || (negb (String.eqb podName "")
      && (String.eqb (PodName ep) podName && String.eqb (PodNamespace ep) namespace))
  || (String.eqb podName "" && String.eqb (PodNamespace ep) namespace).

Fixpoint FindEPs_loop (h : gmap ptr Endpoint) (epID : Z) (namespace podName : string)
    (found : list Endpoint) (l : list ptr) : option (list Endpoint) :=
  match l with
  | [] => Some found
  | a :: l' =>
      ep ← h !! a;
      FindEPs_loop h epID namespace podName
        (if findMatch epID namespace podName ep then found ++ [ep] else found) l'
  end.

(** [func (es *Endpoints) FindEPs(epID uint64, namespace string, podName string) []Endpoint]:
    the copies of the matching endpoints. *)
Definition FindEPs (es : Endpoints) (epID : Z) (namespace podName : string)
  : option (list Endpoint) :=
  FindEPs_loop (store es) epID namespace podName [] (eps es).

(** The condition of [GetEndpoint] on one entry. *)
Definition ipMatch (ip : IP) (ep : Endpoint) : bool :=
  NetIP.Equal (IPv4 ep) ip || NetIP.Equal (IPv6 ep) ip.

Fixpoint GetEndpoint_loop (h : gmap ptr Endpoint) (ip : IP) (l : list ptr)
  : option (option ptr) :=
  match l with
  | [] => Some None
  | a :: l' =>
      ep ← h !! a;
      if ipMatch ip ep then Some (Some a) else GetEndpoint_loop h ip l'
  end.

(** [func (es *Endpoints) GetEndpoint(ip net.IP) (endpoint *Endpoint, ok bool)]:
    [Some (Some a)] is [(a, true)], [Some None] is [(nil, false)]. *)
Definition GetEndpoint (es : Endpoints) (ip : IP) : option (option ptr) :=
  GetEndpoint_loop (store es) ip (eps es).

Fixpoint MarkDeleted_loop (h : gmap ptr Endpoint) (del : ptr) (l : list ptr)
  : option (option (gmap ptr Endpoint)) :=
  match l with
  | [] => Some None
  | a :: l' =>
      ep ← h !! a;
      if isDeleted ep then MarkDeleted_loop h del l'
      else
        d ← h !! del;
        if EqualsByID ep d then Some (Some (<[a := set_Deleted (Deleted d) ep]> h))
        else MarkDeleted_loop h del l'
  end.

(** [func (es *Endpoints) MarkDeleted(del *Endpoint)] *)
Definition MarkDeleted (es : Endpoints) (del : ptr) : option Endpoints :=
  r ← MarkDeleted_loop (store es) del (eps es);
  Some match r with
       | Some h => mkEndpoints h (eps es)
       | None => mkEndpoints (store es) (eps es ++ [del])
       end.

(** Every pointer of the table is allocated. *)
Definition allocated (h : gmap ptr Endpoint) (l : list ptr) : Prop :=
  ∀ a, a ∈ l → is_Some (h !! a).

(** The endpoints the table points to, in table order. *)
Definition entries (es : Endpoints) : option (list Endpoint) :=
  mapM (λ a, store es !! a) (eps es).

(** ** What the loops over the table look for *)

(** Entry [i] of the table, the endpoint [ep] at address [a], is the
    first live entry that equals [o] by id: every entry before it is a
    tombstone or differs from [o]. *)
Definition firstLiveMatch (h : gmap ptr Endpoint) (o : Endpoint) (l : list ptr)
    (i : nat) (a : ptr) (ep : Endpoint) : Prop :=
  l !! i = Some a ∧ h !! a = Some ep ∧ isDeleted ep = false ∧ EqualsByID ep o = true
  ∧ ∀ j b e, (j < i)%nat → l !! j = Some b → h !! b = Some e →
             isDeleted e = true ∨ EqualsByID e o = false.

(** No live entry of the table equals [o] by id. *)
Definition noLiveMatch (h : gmap ptr Endpoint) (o : Endpoint) (l : list ptr) : Prop :=
  ∀ a e, a ∈ l → h !! a = Some e → isDeleted e = true ∨ EqualsByID e o = false.

(** The tracked endpoint [ep] equals no element of [newEps] by id. *)
Definition matchesNone (h : gmap ptr Endpoint) (ep : Endpoint) (newEps : list ptr) : Prop :=
  ∀ u o, u ∈ newEps → h !! u = Some o → EqualsByID ep o = false.

(** ** CIDR label filtering *)

Module Labels.

Definition cidrPrefix : string := "cidr:".

(** A label of the form [cidr:...]. *)
Definition isCidrLabel (label : string) : bool := String.prefix cidrPrefix label.

Fixpoint afterSlash (s : string) : option string :=
  match s with
  | EmptyString => None
  | String c s' => if Ascii.eqb c "/"%char then Some s' else afterSlash s'
  end.

Definition digit (c : ascii) : option nat :=
  let n := nat_of_ascii c in
  if (48 <=? n)%nat && (n <=? 57)%nat then Some (n - 48)%nat else None.

Fixpoint digits (acc : nat) (s : string) : option nat :=
  match s with
  | EmptyString => Some acc
  | String c s' => d ← digit c; digits (10 * acc + d)%nat s'
  end.

(** The prefix length of a label [cidr:<ip>/<prefix>]: the decimal
    number after the slash; [None] when the label is not of that form. *)
Definition prefixLen (label : string) : option nat :=
  if isCidrLabel label then
    match afterSlash label with
    | Some EmptyString | None => None
    | Some p => digits 0 p
    end
  else None.

(** The most specific CIDR label seen so far, with its prefix length;
    the first one wins among equals. *)
Fixpoint mostSpecific (best : option (string * nat)) (labels : list string)
  : option (string * nat) :=
  match labels with
  | [] => best
  | label :: rest =>
      match prefixLen label, best with
      | Some n, Some (_, m) =>
          if (m <? n)%nat then mostSpecific (Some (label, n)) rest
          else mostSpecific best rest
      | Some n, None => mostSpecific (Some (label, n)) rest
      | None, _ => mostSpecific best rest
      end
  end.

(** Modelled from the spec: [filterCidrLabels] of the parser package is
    not among the sources (only its test is).  Following section 4.D:
    the labels that are not CIDR labels pass through unchanged, of the
    CIDR labels only the one with the largest prefix length is kept and
    all others are dropped; the test places the kept CIDR label after
    the other labels. *)
Definition filterCidrLabels (labels : list string) : list string :=
  List.filter (λ l, negb (isCidrLabel l)) labels
  ++ match mostSpecific None labels with
     | Some (label, _) => [label]
     | None => []
     end.

End Labels.

(** ** Trace events *)

Module Parser.

Inductive Verdict := FORWARDED | DROPPED.

(** The fields of a decoded trace header that section 6 of the
    specification lists; [OrigIP] is the 16-byte original source IP, a
    field of version 1 only. *)
Record TraceNotify := mkTraceNotify {
  Type_ : Z;
  ObsPoint : Z;
  Version : Z;
  SrcLabel : Z;
  DstLabel : Z;
  OrigIP : list byte
}.

(** The L3 addresses of the packet embedded in the event. *)
Record Packet := mkPacket {
  SrcIP : list byte;
  DstIP : list byte
}.

Record Flow := mkFlow {
  ip_source : list byte;
  ip_destination : list byte;
  verdict : Verdict;
  event_type : Z * Z;
  source_identity : Z;
  destination_identity : Z
}.

Inductive DecodeError := UnknownVersion | MalformedPacket.

Definition TraceNotifyVersion0 : Z := 0.
Definition TraceNotifyVersion1 : Z := 1.

(** The original source IP a header carries: zero-filled when the
    field is absent (version 0). *)
Definition OriginalIP (tn : TraceNotify) : list byte :=
  if Version tn =? TraceNotifyVersion1 then OrigIP tn else repeat x00 16.

Definition isZero (ip : list byte) : bool := forallb (Byte.eqb x00) ip.

(** Modelled from the spec: the decoder of the parser package is not
    among the sources (only its tests are).  Following section 4.D for
    a trace event whose header and embedded packet have been read:
    an unknown header version is an error, so is a packet whose L3
    layer could not be read ([None]); the verdict of a trace event is
    FORWARDED, the event type is the header's type and sub type, and a
    version 1 header with a non-zero original IP substitutes it for
    the L3 source IP of the flow. *)
Definition decodeTrace (tn : TraceNotify) (packet : option Packet) : DecodeError + Flow :=
  if negb ((Version tn =? TraceNotifyVersion0) || (Version tn =? TraceNotifyVersion1))
  then inl UnknownVersion
  else
    match packet with
    | None => inl MalformedPacket
    | Some p =>
        let orig := OriginalIP tn in
        inr (mkFlow (if isZero orig then SrcIP p else orig) (DstIP p)
                    FORWARDED (Type_ tn, ObsPoint tn) (SrcLabel tn) (DstLabel tn))
    end.

End Parser.

(** ** The IP cache *)

Module IPCache.

(** An address: [false] with a 32-bit number for IPv4, [true] with a
    128-bit number for IPv6.  A CIDR is an address with a prefix
    length. *)
Abbreviation Addr := (bool * N)%type.
Abbreviation CIDR := (bool * N * nat)%type.

Record PodMeta := mkPodMeta {
  Source : string;
  Namespace : string;
  Name : string
}.

Record Entry := mkEntry {
  Identity : Z;
  Metadata : option PodMeta
}.

(** The payload of an agent notification. *)
Record Notification := mkNotification {
  n_cidr : CIDR;
  n_identity : Z;
  n_old_identity : option Z;
  n_host_ip : option Addr;
  n_old_host_ip : option Addr;
  n_encrypt_key : Z;
  n_namespace : string;
  n_pod : string
}.

Inductive AgentNotify :=
| IPCacheUpserted (n : Notification)
| IPCacheDeleted (n : Notification)
| OtherNotify.

Definition podMeta (namespace pod : string) : option PodMeta :=
  if String.eqb namespace "" && String.eqb pod "" then None
  else Some (mkPodMeta "" namespace pod).

(** Modelled from the spec: package ipcache is not among the sources
    (only a test of its caller is).  Following section 4.C: when the
    old identity is present and the identity stored for the CIDR
    differs from it, the call does nothing; otherwise the entry is
    stored with the new identity and the optional pod metadata.  With
    an old identity and nothing stored for the CIDR there is no stored
    identity that differs, and the entry is stored. *)
Definition Upsert (c : gmap CIDR Entry) (cidr : CIDR) (newIdentity : Z)
    (oldIdentity : option Z) (hostIP oldHostIP : option Addr) (encryptKey : Z)
    (namespace pod : string) : gmap CIDR Entry :=
  let stale :=
    match oldIdentity, c !! cidr with
    | Some old, Some e => negb (Identity e =? old)
    | _, _ => false
    end in
  if stale then c else <[cidr := mkEntry newIdentity (podMeta namespace pod)]> c.

(** Modelled from the spec: delete removes the entry unconditionally. *)
Definition Delete (c : gmap CIDR Entry) (cidr : CIDR) : gmap CIDR Entry :=
  delete cidr c.

Definition width (v6 : bool) : N := if v6 then 128%N else 32%N.

Definition covers (cidr : CIDR) (ip : Addr) : bool :=
  let '(v6, a, len) := cidr in
  let sh := (width v6 - N.of_nat len)%N in
  Bool.eqb v6 (fst ip) && (N.shiftr a sh =? N.shiftr (snd ip) sh)%N.

(** Longest-prefix match: the most specific entry that covers [ip]. *)
Definition longestMatch (c : gmap CIDR Entry) (ip : Addr) : option (nat * Entry) :=
  map_fold (λ (cidr : CIDR) (e : Entry) (best : option (nat * Entry)),
              if covers cidr ip then
                match best with
                | Some (len, _) => if (len <? snd cidr)%nat then Some (snd cidr, e) else best
                | None => Some (snd cidr, e)
                end
              else best) None c.

(** Modelled from the spec: [(namespace, pod, true)] iff the matched
    entry carries both. *)
Definition GetPodNameOf (c : gmap CIDR Entry) (ip : Addr) : string * string * bool :=
  match longestMatch c ip with
  | Some (_, mkEntry _ (Some m)) =>
      if negb (String.eqb (Namespace m) "") && negb (String.eqb (Name m) "")
      then (Namespace m, Name m, true) else (EmptyString, EmptyString, false)
  | _ => (EmptyString, EmptyString, false)
  end.

(** One step of the sync loop: dispatch on the kind of notification. *)
Definition apply (c : gmap CIDR Entry) (ev : AgentNotify) : gmap CIDR Entry :=
  match ev with
  | IPCacheUpserted n =>
      Upsert c (n_cidr n) (n_identity n) (n_old_identity n) (n_host_ip n)
             (n_old_host_ip n) (n_encrypt_key n) (n_namespace n) (n_pod n)
  | IPCacheDeleted n => Delete c (n_cidr n)
  | OtherNotify => c
  end.

(** The sync loop over the notifications the channel delivers before it
    is closed, after the bootstrap has seeded the cache. *)
Definition syncIPCache (bootstrap : list (CIDR * Entry)) (events : list AgentNotify)
  : gmap CIDR Entry :=
  fold_left apply events
    (fold_left (λ c (ce : CIDR * Entry), <[ce.1 := ce.2]> c) bootstrap ∅).

(** The dotted quad [a.b.c.d] as an IPv4 address. *)
Definition ipv4 (a b c d : N) : Addr :=
  (false, (((a * 256 + b) * 256 + c) * 256 + d)%N).

(** The data of end-to-end scenario 5 (test [TestObserverServer_syncIPCache]). *)
Definition scenario5_bootstrap : list (CIDR * Entry) :=
  [ (ipv4 1 1 1 1, 32%nat, mkEntry 100 None);
    (ipv4 2 2 2 2, 32%nat, mkEntry 100 None);
    (ipv4 3 3 3 3, 32%nat, mkEntry 100 (Some (mkPodMeta "k8s" "ns-3" "pod-3")));
    (ipv4 4 4 4 4, 32%nat, mkEntry 100 None) ].

Definition scenario5_events : list AgentNotify :=
  [ IPCacheUpserted (mkNotification (ipv4 3 3 3 3, 32%nat) 100 (Some 200) None None 0 "" "");
    IPCacheDeleted (mkNotification (ipv4 2 2 2 2, 32%nat) 100 None None None 0 "" "");
    IPCacheUpserted (mkNotification (ipv4 2 2 2 2, 32%nat) 100 None None None 0 "ns-2" "pod-2");
    IPCacheUpserted (mkNotification (ipv4 1 1 1 1, 32%nat) 100 (Some 100) None None 0 "ns-1" "pod-1");
    IPCacheDeleted (mkNotification (ipv4 4 4 4 4, 32%nat) 100 None None None 0 "" "") ].

End IPCache.

(** What [updateEndpoint] does to the entry it matched: [ep'] is [ep]
    with each of the six fields that [SetFrom] assigns taken from [o]
    where [o]'s field is not zero-valued and kept where it is, and with
    the time fields of [ep]. *)
Definition updatedFrom (ep o ep' : Endpoint) : Prop :=
  Created ep' = Created ep ∧ Deleted ep' = Deleted ep
  ∧ (ContainerIDs o ≠ None → ContainerIDs ep' = ContainerIDs o)
  ∧ (ContainerIDs o = None → ContainerIDs ep' = ContainerIDs ep)
  ∧ (ID o ≠ 0 → ID ep' = ID o)
  ∧ (ID o = 0 → ID ep' = ID ep)
  ∧ (IPv4 o ≠ None → IPv4 ep' = IPv4 o)
  ∧ (IPv4 o = None → IPv4 ep' = IPv4 ep)
  ∧ (IPv6 o ≠ None → IPv6 ep' = IPv6 o)
  ∧ (IPv6 o = None → IPv6 ep' = IPv6 ep)
  ∧ (PodName o ≠ "" → PodName ep' = PodName o)
  ∧ (PodName o = "" → PodName ep' = PodName ep)
  ∧ (PodNamespace o ≠ "" → PodNamespace ep' = PodNamespace o)
  ∧ (PodNamespace o = "" → PodNamespace ep' = PodNamespace ep).

(** ** An invariant of the table *)

(** No live entry of the table equals a later live entry by id. *)
Definition liveDistinct (h : gmap ptr Endpoint) (l : list ptr) : Prop :=
  ∀ i j a b ea eb,
    (i < j)%nat → l !! i = Some a → l !! j = Some b →
    h !! a = Some ea → h !! b = Some eb →
    isDeleted ea = false → isDeleted eb = false →
    EqualsByID ea eb = false.

(** The states of a table that starts empty and is driven through its
    three mutators with pointers to allocated endpoints, by a caller that
    creates endpoints and does not write to them afterwards. *)
Inductive reachable : Endpoints → Prop :=
| reach_empty (h : gmap ptr Endpoint) :
    reachable (mkEndpoints h [])
| reach_new (es : Endpoints) (a : ptr) (e : Endpoint) :
    reachable es → store es !! a = None →
    reachable (mkEndpoints (<[a := e]> (store es)) (eps es))
| reach_UpdateEndpoint (es es' : Endpoints) (updateEp : ptr) :
    reachable es → is_Some (store es !! updateEp) →
    UpdateEndpoint es updateEp = Some es' → reachable es'
| reach_MarkDeleted (es es' : Endpoints) (del : ptr) :
    reachable es → is_Some (store es !! del) →
    MarkDeleted es del = Some es' → reachable es'
| reach_SyncEndpoints (now : nat → Time) (es es' : Endpoints) (newEps : list ptr) :
    reachable es → allocated (store es) newEps →
    SyncEndpoints now es newEps = Some es' → reachable es'.

(** [h'] holds the endpoints of [h] with, at most, other deleted-at
    fields, and no endpoint that [h] has as a tombstone is live in [h']. *)
Definition stampedFrom (h h' : gmap ptr Endpoint) : Prop :=
  ∀ x e', h' !! x = Some e' →
          ∃ e d, h !! x = Some e ∧ e' = set_Deleted d e
                 ∧ (isDeleted e' = false → isDeleted e = false).

(** ** The status command *)

Module Status.

(** [healthpb.HealthCheckResponse_ServingStatus] of gRPC's health
    protocol, with the names its [String] method prints. *)
Inductive ServingStatus := UNKNOWN | SERVING | NOT_SERVING | SERVICE_UNKNOWN.

Definition ServingStatus_String (st : ServingStatus) : string :=
  match st with
  | UNKNOWN => "UNKNOWN"
  | SERVING => "SERVING"
  | NOT_SERVING => "NOT_SERVING"
  | SERVICE_UNKNOWN => "SERVICE_UNKNOWN"
  end.

(** A Go [error], by its message. *)
Definition error := string.

(** The two fields of [pb.ServerStatusResponse] that [runStatus] prints. *)
Record ServerStatusResponse := mkServerStatusResponse {
  NumFlows : Z;
  MaxFlows : Z
}.

(** What the network answers to the calls the command makes: the error
    of the [grpc.Dial] of [getHC], the answer of the health check, the
    error of the [grpc.Dial] of [getStatus] and the answer of the
    [ServerStatus] call. *)
Record Env := mkEnv {
  dialHC : option error;
  healthCheck : error + ServingStatus;
  dialStatus : option error;
  serverStatus : error + ServerStatusResponse
}.

(** [func getHC(s string) (bool, string, error)] *)
Definition getHC (env : Env) : bool * string * option error :=
  match dialHC env with
  | Some err => (false, EmptyString, Some err)
  | None =>
      match healthCheck env with
      | inl err => (false, "Error: " +:+ err, Some err)
      | inr SERVING => (true, "Ok", None)
      | inr st => (false, "Unavailable: " +:+ ServingStatus_String st, None)
      end
  end.

(** [func getStatus(s string)], which returns a pointer to a
    [pb.ServerStatusResponse] and an error: [None] is the [panic(err)]
    after a failed dial; the response of the result is [None] for a nil
    pointer. *)
Definition getStatus (env : Env) : option (option ServerStatusResponse * option error) :=
  match dialStatus env with
  | Some _ => None
  | None =>
      match serverStatus env with
      | inl err => Some (None, Some err)
      | inr res => Some (Some res, None)
      end
  end.

(** The calls of [fmt.Println] and [fmt.Printf] that [runStatus] makes,
    with their arguments. *)
Inductive Output :=
| FailedGettingStatus (err : error)
| Healthcheck (serverURL status : string)
| FailedToGetServerStatus (err : error)
| MaxFlowsLine (maxFlows : Z)
| CurrentFlowsLine (numFlows maxFlows : Z).

(** How [runStatus] ends: [os.Exit], a panic, or a return. *)
Inductive Outcome := Exit (code : Z) | Panic | Return (err : option error).

(** [func runStatus(serverURL string) error]: the lines printed and how
    the call ends.  After a failed [getStatus] the response is a nil
    pointer, and reading [ss.MaxFlows] panics. *)
Definition runStatus (serverURL : string) (env : Env) : list Output * Outcome :=
  match getHC env with
  | (_, _, Some err) => ([FailedGettingStatus err], Exit (-1))
  | (healthy, status, None) =>
      let out := [Healthcheck serverURL status] in
      if negb healthy then (out, Exit (-1))
      else
        match getStatus env with
        | None => (out, Panic)
        | Some (ss, err) =>
            let out :=
              match err with
              | Some e => out ++ [FailedToGetServerStatus e]
              | None => out
              end in
            match ss with
            | None => (out, Panic)
            | Some res =>
                (out ++ [MaxFlowsLine (MaxFlows res);
                         CurrentFlowsLine (NumFlows res) (MaxFlows res)],
                 Return None)
            end
        end
  end.

End Status.

(** ** Sample data *)

Definition tracked_without_pod : Endpoint :=
  mkEndpoint 0 None None 1 None None "" "" None.

Definition update_with_pod : Endpoint :=
  mkEndpoint 0 None None 1 None None "xwing" "default" None.

Definition stored_endpoint : Endpoint :=
  mkEndpoint 10 (Some 20) (Some ["c1"]) 7 (Some [x0a; x00; x00; x01]) None
             "xwing" "default" (Some ["a"]).

Definition sparse_update : Endpoint :=
  mkEndpoint 99 None None 0 None (Some [xff]) "" "kube-system" None.

Definition http_get : HTTP := mkHTTP 200 "GET" "/index.html" "HTTP/1.1".

(** A table whose only entry is a tombstone. *)
Definition tombstone_table : Endpoints :=
  mkEndpoints {[ 1%nat := stored_endpoint ]} [1%nat].

(** The caller holds a tombstoned endpoint; the table is empty. *)
Definition empty_table : Endpoints :=
  mkEndpoints {[ 1%nat := stored_endpoint ]} [].

(** The table tracks endpoint 1 without pod name; the caller holds
    endpoint 2, the same id with pod name and namespace. *)
Definition live_table : Endpoints :=
  mkEndpoints {[ 1%nat := tracked_without_pod; 2%nat := update_with_pod ]} [1%nat].

Definition other_endpoint : Endpoint :=
  mkEndpoint 0 None None 5 None None "tiefighter" "default" None.

(** The table tracks endpoints 1 and 3; the agent reports endpoint 2,
    which equals endpoint 1 by id. *)
Definition sync_table : Endpoints :=
  mkEndpoints {[ 1%nat := tracked_without_pod; 2%nat := update_with_pod;
                 3%nat := other_endpoint ]} [1%nat; 3%nat].

Definition sync_clock : nat → Time := λ k, 1000 + Z.of_nat k.

(** End-to-end scenario 3 (test [TestTraceNotifyOriginalIP]): a version 1
    header with original IP 1.1.1.1 over a packet from 2.2.2.2 to 3.3.3.3. *)
Definition scenario3_origIP : list byte :=
  [x01; x01; x01; x01; x00; x00; x00; x00; x00; x00; x00; x00; x00; x00; x00; x00].

Definition scenario3_header : Parser.TraceNotify :=
  Parser.mkTraceNotify 4 0 Parser.TraceNotifyVersion1 0 0 scenario3_origIP.

Definition scenario3_packet : Parser.Packet :=
  Parser.mkPacket [x02; x02; x02; x02] [x03; x03; x03; x03].

(** The cache after the bootstrap and the notifications of scenario 5. *)
Definition scenario5_cache : gmap IPCache.CIDR IPCache.Entry :=
  IPCache.syncIPCache IPCache.scenario5_bootstrap IPCache.scenario5_events.

(** The same endpoint as [update_with_pod], seen with an address. *)
Definition update_with_address : Endpoint :=
  mkEndpoint 0 None None 1 (Some [x0a; x00; x00; x02]) None "xwing" "default" None.

(** A live endpoint with an address and container ids, and an update
    for it that carries the id, pod name and namespace only. *)
Definition addressed_endpoint : Endpoint :=
  mkEndpoint 10 None (Some ["c1"]) 7 (Some [x0a; x00; x00; x01]) None
             "xwing" "default" (Some ["a"]).

Definition bare_update : Endpoint :=
  mkEndpoint 0 None None 7 None None "xwing" "default" None.

Definition addressed_table : Endpoints :=
  mkEndpoints {[ 1%nat := addressed_endpoint; 2%nat := bare_update ]} [1%nat].

(** ** Boolean tests as propositions *)

Ltac bool_to_prop :=
  repeat match goal with
  | H : _ && _ = true |- _ => apply andb_true_iff in H; destruct H
  | H : _ || _ = true |- _ => apply orb_true_iff in H; destruct H
  | H : (_ =? _) = true |- _ => apply Z.eqb_eq in H
  | H : String.eqb _ _ = true |- _ => apply String.eqb_eq in H
  end.

Ltac prop_to_bool :=
  repeat match goal with
  | |- _ && _ = true => apply andb_true_iff; split
  | |- (_ =? _) = true => apply Z.eqb_eq
  | |- String.eqb _ _ = true => apply String.eqb_eq
  end.

(** * Properties *)

(** ** Endpoint equality *)

(** [EqualsByID] as a proposition: the ids match and the receiver has no
    pod name and namespace, or both agree with the argument's. *)
Lemma EqualsByID_true (e o : Endpoint) :
  EqualsByID e o = true ↔
  ID e = ID o ∧ ((PodName e = "" ∧ PodNamespace e = "")
                 ∨ (PodName e = PodName o ∧ PodNamespace e = PodNamespace o)).
Proof.
  unfold EqualsByID. split.
  - intros H. bool_to_prop; split; auto.
  - intros [Hid [[Hp Hn] | [Hp Hn]]]; apply orb_true_iff; [left | right];
      prop_to_bool; assumption.
Qed.

Lemma EqualsByID_refl (e : Endpoint) : EqualsByID e e = true.
Proof. apply EqualsByID_true. auto. Qed.

(** The test reads the id, pod name and namespace only. *)
Lemma EqualsByID_set_Deleted_l d (e o : Endpoint) :
  EqualsByID (set_Deleted d e) o = EqualsByID e o.
Proof. reflexivity. Qed.

Lemma EqualsByID_set_Deleted_r d (e o : Endpoint) :
  EqualsByID e (set_Deleted d o) = EqualsByID e o.
Proof. reflexivity. Qed.

(** C1, as stated, fails: an endpoint tracked without pod name and
    namespace equals an endpoint with the same id that has them, but not
    the other way round, so [EqualsByID] is neither symmetric nor the
    predicate of the data model. *)
Lemma EqualsByID_not_symmetric :
  EqualsByID tracked_without_pod update_with_pod = true
  ∧ EqualsByID update_with_pod tracked_without_pod = false
  ∧ sameEndpoint_spec tracked_without_pod update_with_pod = false
  ∧ ¬ (∀ e o, EqualsByID e o = EqualsByID o e)
  ∧ ¬ (∀ e o, EqualsByID e o = sameEndpoint_spec e o).
Proof.
  split; [reflexivity |]. split; [reflexivity |]. split; [reflexivity |].
  split; intros H; specialize (H tracked_without_pod update_with_pod); discriminate H.
Qed.

Lemma sameEndpoint_spec_true (e o : Endpoint) :
  sameEndpoint_spec e o = true ↔
  ID e = ID o ∧ (((PodName e = "" ∧ PodNamespace e = "")
                  ∧ (PodName o = "" ∧ PodNamespace o = ""))
                 ∨ (PodName e = PodName o ∧ PodNamespace e = PodNamespace o)).
Proof.
  unfold sameEndpoint_spec. split.
  - intros H. bool_to_prop; split; auto.
  - intros [Hid Hrest]. apply andb_true_iff. split; [apply Z.eqb_eq; exact Hid |].
    apply orb_true_iff. destruct Hrest as [[[Hp Hn] [Hp' Hn']] | [Hp Hn]].
    + left. prop_to_bool; assumption.
    + right. prop_to_bool; assumption.
Qed.

Lemma bool_eq_iff (a b : bool) : (a = true ↔ b = true) → a = b.
Proof.
  destruct a, b; intros [H1 H2]; try reflexivity.
  - symmetry. apply H1. reflexivity.
  - apply H2. reflexivity.
Qed.

(** C1, amended: [EqualsByID] is reflexive, and [e.EqualsByID(o)] holds
    iff the ids match and either the receiver [e] has empty pod name and
    namespace or both pod name and namespace match.  Its answer is that
    of the predicate of the data model unless the receiver has empty pod
    name and namespace and [o] has not; and [e.EqualsByID(o)] and
    [o.EqualsByID(e)] give the same answer whenever [e] and [o] both
    have empty pod name and namespace or neither has. *)
Theorem EqualsByID_receiver_sided :
  (∀ e, EqualsByID e e = true)
  ∧ (∀ e o, EqualsByID e o = true ↔
            ID e = ID o ∧ ((PodName e = "" ∧ PodNamespace e = "")
                           ∨ (PodName e = PodName o ∧ PodNamespace e = PodNamespace o)))
  ∧ (∀ e o, (PodName e = "" ∧ PodNamespace e = "" →
             PodName o = "" ∧ PodNamespace o = "") →
            EqualsByID e o = sameEndpoint_spec e o)
  ∧ (∀ e o, (PodName e = "" ∧ PodNamespace e = ""
             ↔ PodName o = "" ∧ PodNamespace o = "") →
            EqualsByID e o = EqualsByID o e).
Proof.
  split; [exact EqualsByID_refl |]. split; [exact EqualsByID_true |]. split.
  - intros e o Hdom. apply bool_eq_iff.
    rewrite EqualsByID_true, sameEndpoint_spec_true. split.
    + intros [Hid [He | Hsame]]; (split; [exact Hid |]); [left | right]; auto.
    + intros [Hid [[He _] | Hsame]]; (split; [exact Hid |]); [left | right]; auto.
  - intros e o Hdom. apply bool_eq_iff. rewrite !EqualsByID_true. split.
    + intros [Hid [He | [Hp Hn]]]; (split; [congruence |]).
      * left. apply Hdom. exact He.
      * right. split; congruence.
    + intros [Hid [Ho | [Hp Hn]]]; (split; [congruence |]).
      * left. apply Hdom. exact Ho.
      * right. split; congruence.
Qed.

Lemma EqualsByID_receiver_sided_witness :
  (PodName update_with_pod = "" ∧ PodNamespace update_with_pod = ""
   ↔ PodName update_with_address = "" ∧ PodNamespace update_with_address = "")
  ∧ EqualsByID update_with_pod update_with_address = true
  ∧ EqualsByID update_with_pod update_with_address
    = EqualsByID update_with_address update_with_pod
  ∧ EqualsByID update_with_pod update_with_address
    = sameEndpoint_spec update_with_pod update_with_address.
Proof.
  assert (Hdom : PodName update_with_pod = "" ∧ PodNamespace update_with_pod = ""
                 ↔ PodName update_with_address = ""
                   ∧ PodNamespace update_with_address = "").
  { split; intros [H _]; discriminate H. }
  split; [exact Hdom |]. split; [reflexivity |]. split.
  - apply (proj2 (proj2 (proj2 EqualsByID_receiver_sided))
             update_with_pod update_with_address Hdom).
  - apply (proj1 (proj2 (proj2 EqualsByID_receiver_sided))
             update_with_pod update_with_address (proj1 Hdom)).
Defined.

(** ** SetFrom *)

Lemma SetFrom_self (e : Endpoint) : SetFrom e e = e.
Proof.
  destruct e as [c d cids id ip4 ip6 pod ns lbl]. unfold SetFrom. simpl.
  f_equal.
  - destruct cids; reflexivity.
  - destruct (id =? 0) eqn:E; reflexivity.
  - destruct ip4; reflexivity.
  - destruct ip6; reflexivity.
  - destruct (String.eqb pod ""); reflexivity.
  - destruct (String.eqb ns ""); reflexivity.
Qed.

Lemma updateEndpoint_loop_time (h : gmap ptr Endpoint) (p : ptr) (l : list ptr) :
  ∀ h', updateEndpoint_loop h p l = Some (Some h') →
  ∀ a ep, h !! a = Some ep →
          ∃ ep', h' !! a = Some ep' ∧ Created ep' = Created ep ∧ Deleted ep' = Deleted ep.
Proof.
  induction l as [| b l IH]; intros h' Hrun a ep Ha; simpl in Hrun; [discriminate |].
  destruct (h !! b) as [e |] eqn:He; simpl in Hrun; [| discriminate].
  destruct (isDeleted e); [apply (IH h' Hrun a ep Ha) |].
  destruct (h !! p) as [o |]; simpl in Hrun; [| discriminate].
  destruct (EqualsByID e o); [| apply (IH h' Hrun a ep Ha)].
  inversion Hrun; subst h'; clear Hrun.
  destruct (decide (a = b)) as [-> | Hne].
  - rewrite He in Ha. inversion Ha; subst ep.
    exists (SetFrom e o). split; [apply lookup_insert_eq |]. split; reflexivity.
  - exists ep. rewrite lookup_insert_ne by congruence. auto.
Qed.

(** C5: [SetFrom] leaves the time fields [Created] and [Deleted] of the
    receiver exactly as they were, whatever the source holds; so a call
    of [UpdateEndpoint] that returns leaves the time fields of every
    endpoint of the store as they were. *)
Theorem SetFrom_keeps_time_fields :
  (∀ e o, Created (SetFrom e o) = Created e ∧ Deleted (SetFrom e o) = Deleted e)
  ∧ (∀ es updateEp es' a ep,
        UpdateEndpoint es updateEp = Some es' → store es !! a = Some ep →
        ∃ ep', store es' !! a = Some ep'
               ∧ Created ep' = Created ep ∧ Deleted ep' = Deleted ep).
Proof.
  split; [intros e o; split; reflexivity |].
  intros es p es' a ep Hrun Ha. unfold UpdateEndpoint, updateEndpoint in Hrun.
  destruct (updateEndpoint_loop (store es) p (eps es)) as [[h' |] |] eqn:Hloop;
    simpl in Hrun; inversion Hrun; subst es'; simpl.
  - apply (updateEndpoint_loop_time _ _ _ h' Hloop a ep Ha).
  - exists ep. auto.
Qed.

Lemma SetFrom_keeps_time_fields_witness :
  UpdateEndpoint live_table 2%nat
  = Some (mkEndpoints (<[1%nat := SetFrom tracked_without_pod update_with_pod]>
                         (store live_table)) [1%nat])
  ∧ store live_table !! 1%nat = Some tracked_without_pod
  ∧ ∃ ep', store (mkEndpoints (<[1%nat := SetFrom tracked_without_pod update_with_pod]>
                                 (store live_table)) [1%nat]) !! 1%nat = Some ep'
           ∧ Created ep' = Created tracked_without_pod
           ∧ Deleted ep' = Deleted tracked_without_pod.
Proof.
  split; [reflexivity |]. split; [reflexivity |].
  apply (proj2 SetFrom_keeps_time_fields live_table 2%nat _ 1%nat tracked_without_pod);
    reflexivity.
Defined.

Lemma isDeleted_SetFrom (e o : Endpoint) : isDeleted (SetFrom e o) = isDeleted e.
Proof. reflexivity. Qed.

(** C10: [SetFrom] is a partial overwrite.  A zero-valued field of the
    source (nil [ContainerIDs], [ID] 0, nil [IPv4] or [IPv6], empty
    [PodName] or [PodNamespace]) leaves that field of the receiver
    unchanged; a field that is not zero-valued is copied; no other field
    is written. *)
Theorem SetFrom_partial_overwrite (e o : Endpoint) :
  (ContainerIDs o = None → ContainerIDs (SetFrom e o) = ContainerIDs e)
  ∧ (ID o = 0 → ID (SetFrom e o) = ID e)
  ∧ (IPv4 o = None → IPv4 (SetFrom e o) = IPv4 e)
  ∧ (IPv6 o = None → IPv6 (SetFrom e o) = IPv6 e)
  ∧ (PodName o = "" → PodName (SetFrom e o) = PodName e)
  ∧ (PodNamespace o = "" → PodNamespace (SetFrom e o) = PodNamespace e)
  ∧ (ContainerIDs o ≠ None → ContainerIDs (SetFrom e o) = ContainerIDs o)
  ∧ (ID o ≠ 0 → ID (SetFrom e o) = ID o)
  ∧ (IPv4 o ≠ None → IPv4 (SetFrom e o) = IPv4 o)
  ∧ (IPv6 o ≠ None → IPv6 (SetFrom e o) = IPv6 o)
  ∧ (PodName o ≠ "" → PodName (SetFrom e o) = PodName o)
  ∧ (PodNamespace o ≠ "" → PodNamespace (SetFrom e o) = PodNamespace o)
  ∧ Labels (SetFrom e o) = Labels e
  ∧ Created (SetFrom e o) = Created e
  ∧ Deleted (SetFrom e o) = Deleted e.
Proof.
  unfold SetFrom; simpl.
  repeat split; try reflexivity.
  - intros ->. reflexivity.
  - intros ->. reflexivity.
  - intros ->. reflexivity.
  - intros ->. reflexivity.
  - intros ->. reflexivity.
  - intros ->. reflexivity.
  - destruct (ContainerIDs o); [reflexivity | congruence].
  - intros H. apply Z.eqb_neq in H. rewrite H. reflexivity.
  - destruct (IPv4 o); [reflexivity | congruence].
  - destruct (IPv6 o); [reflexivity | congruence].
  - intros H. apply String.eqb_neq in H. rewrite H. reflexivity.
  - intros H. apply String.eqb_neq in H. rewrite H. reflexivity.
Qed.

Lemma SetFrom_partial_overwrite_witness :
  SetFrom stored_endpoint sparse_update
  = mkEndpoint 10 (Some 20) (Some ["c1"]) 7 (Some [x0a; x00; x00; x01]) (Some [xff])
               "xwing" "kube-system" (Some ["a"])
  ∧ ID (SetFrom stored_endpoint sparse_update) = ID stored_endpoint
  ∧ PodNamespace (SetFrom stored_endpoint sparse_update) = PodNamespace sparse_update.
Proof.
  split; [reflexivity |].
  destruct (SetFrom_partial_overwrite stored_endpoint sparse_update)
    as (_ & Hid & _ & _ & _ & _ & _ & _ & _ & _ & _ & Hns & _).
  split.
  - apply Hid. reflexivity.
  - apply Hns. discriminate.
Defined.

(** ** Loose comparison of HTTP records *)

Lemma LooseCompareHTTP_true (a b : HTTP) :
  LooseCompareHTTP a b = true ↔
  Code a = Code b ∧ Method a = Method b ∧ Url a = Url b ∧ Protocol a = Protocol b.
Proof.
  unfold LooseCompareHTTP. split.
  - intros H. bool_to_prop. auto.
  - intros (Hc & Hm & Hu & Hp). prop_to_bool; assumption.
Qed.

(** C9: [LooseCompareHTTP a b] is true iff code, method, url and
    protocol of the two records are equal; so it is reflexive, symmetric
    and transitive. *)
Theorem LooseCompareHTTP_equivalence :
  (∀ a b, LooseCompareHTTP a b = true ↔
          Code a = Code b ∧ Method a = Method b ∧ Url a = Url b ∧ Protocol a = Protocol b)
  ∧ (∀ a, LooseCompareHTTP a a = true)
  ∧ (∀ a b, LooseCompareHTTP a b = LooseCompareHTTP b a)
  ∧ (∀ a b c, LooseCompareHTTP a b = true → LooseCompareHTTP b c = true →
              LooseCompareHTTP a c = true).
Proof.
  split; [exact LooseCompareHTTP_true |]. split; [| split].
  - intros a. apply LooseCompareHTTP_true. auto.
  - intros a b. unfold LooseCompareHTTP.
    rewrite (Z.eqb_sym (Code a)), (String.eqb_sym (Method a)),
      (String.eqb_sym (Url a)), (String.eqb_sym (Protocol a)). reflexivity.
  - intros a b c Hab Hbc.
    apply LooseCompareHTTP_true in Hab. apply LooseCompareHTTP_true in Hbc.
    apply LooseCompareHTTP_true.
    destruct Hab as (? & ? & ? & ?), Hbc as (? & ? & ? & ?).
    repeat split; congruence.
Qed.

Lemma LooseCompareHTTP_equivalence_witness :
  LooseCompareHTTP http_get http_get = true.
Proof.
  apply (proj2 (proj2 (proj2 LooseCompareHTTP_equivalence)) http_get http_get http_get);
    reflexivity.
Defined.

(** ** Lookups *)

Lemma FindEPs_loop_filter (h : gmap ptr Endpoint) epID ns pod (l : list ptr) :
  ∀ found,
    FindEPs_loop h epID ns pod found l
    = (λ all, found ++ List.filter (findMatch epID ns pod) all) <$> mapM (λ a, h !! a) l.
Proof.
  induction l as [| a l IH]; intros found; simpl.
  - rewrite app_nil_r. reflexivity.
  - destruct (h !! a) as [ep |]; simpl; [| reflexivity].
    rewrite IH. destruct (mapM (λ a0, h !! a0) l) as [all |]; simpl; [| reflexivity].
    destruct (findMatch epID ns pod ep); [| reflexivity].
    rewrite <- app_assoc. reflexivity.
Qed.

Lemma mapM_allocated (h : gmap ptr Endpoint) (l : list ptr) :
  allocated h l → is_Some (mapM (λ a, h !! a) l).
Proof.
  induction l as [| a l IH]; intros Hal; simpl; [eauto |].
  destruct (Hal a) as [ep Hep]; [left |]. rewrite Hep. simpl.
  destruct IH as [all Hall].
  - intros b Hb. apply Hal. right. exact Hb.
  - rewrite Hall. simpl. eauto.
Qed.

Lemma GetEndpoint_loop_first (h : gmap ptr Endpoint) (ip : IP) (l : list ptr) :
  allocated h l →
  (∃ a i ep, GetEndpoint_loop h ip l = Some (Some a)
             ∧ l !! i = Some a ∧ h !! a = Some ep ∧ ipMatch ip ep = true
             ∧ ∀ j b e, (j < i)%nat → l !! j = Some b → h !! b = Some e →
                        ipMatch ip e = false)
  ∨ (GetEndpoint_loop h ip l = Some None
     ∧ ∀ a e, a ∈ l → h !! a = Some e → ipMatch ip e = false).
Proof.
  induction l as [| a l IH]; intros Hal; simpl.
  - right. split; [reflexivity |]. intros a e Ha. inversion Ha.
  - destruct (Hal a) as [ep Hep]; [left |]. rewrite Hep. simpl.
    destruct (ipMatch ip ep) eqn:Hm.
    + left. exists a, 0%nat, ep. repeat split; auto. intros j b e Hj. lia.
    + destruct IH as [(a' & i & ep' & Hget & Hi & Hep' & Hm' & Hbefore) | [Hget Hnone]].
      * intros b Hb. apply Hal. right. exact Hb.
      * left. exists a', (S i), ep'. repeat split; auto.
        intros j b e Hj Hb He. destruct j as [| j]; simpl in Hb.
        -- inversion Hb; subst b. rewrite Hep in He. inversion He; subst e. exact Hm.
        -- apply (Hbefore j b e); auto. lia.
      * right. split; [exact Hget |]. intros b e Hb He.
        apply elem_of_cons in Hb. destruct Hb as [-> | Hb].
        -- rewrite Hep in He. inversion He; subst e. exact Hm.
        -- apply (Hnone b e); auto.
Qed.

(** C2, as stated, fails: the table whose only entry is tombstoned
    returns that entry from [FindEPs] and from [GetEndpoint]. *)
Lemma lookups_return_tombstones :
  FindEPs tombstone_table 7 "" "" = Some [stored_endpoint]
  ∧ GetEndpoint tombstone_table (Some [x0a; x00; x00; x01]) = Some (Some 1%nat)
  ∧ store tombstone_table !! 1%nat = Some stored_endpoint
  ∧ Deleted stored_endpoint = Some 20.
Proof. repeat split; reflexivity. Qed.

(** C2, amended: lookups do not look at deleted-at.  On a table whose
    pointers are allocated, [FindEPs] returns the copies of all entries,
    live or tombstoned, that satisfy the condition on id, namespace and
    pod name, in table order; [GetEndpoint] returns the first entry,
    live or tombstoned, whose IPv4 or IPv6 equals the address, and
    nothing when no entry has it. *)
Theorem lookups_return_matching_entries (es : Endpoints) :
  allocated (store es) (eps es) →
  (∀ epID ns pod,
      ∃ all, entries es = Some all
             ∧ FindEPs es epID ns pod = Some (List.filter (findMatch epID ns pod) all))
  ∧ (∀ ip,
        (∃ a i ep, GetEndpoint es ip = Some (Some a)
                   ∧ eps es !! i = Some a ∧ store es !! a = Some ep
                   ∧ ipMatch ip ep = true
                   ∧ ∀ j b e, (j < i)%nat → eps es !! j = Some b → store es !! b = Some e →
                              ipMatch ip e = false)
        ∨ (GetEndpoint es ip = Some None
           ∧ ∀ a e, a ∈ eps es → store es !! a = Some e → ipMatch ip e = false)).
Proof.
  intros Hal. split.
  - intros epID ns pod. destruct (mapM_allocated _ _ Hal) as [all Hall].
    exists all. split; [exact Hall |].
    unfold FindEPs. rewrite FindEPs_loop_filter. fold (entries es).
    unfold entries in *. rewrite Hall. reflexivity.
  - intros ip. apply GetEndpoint_loop_first. exact Hal.
Qed.

Lemma tombstone_table_allocated : allocated (store tombstone_table) (eps tombstone_table).
Proof.
  intros a Ha. apply list_elem_of_singleton in Ha. subst a.
  exists stored_endpoint. reflexivity.
Qed.

Lemma lookups_return_matching_entries_witness :
  allocated (store tombstone_table) (eps tombstone_table)
  ∧ ∃ all, entries tombstone_table = Some all
           ∧ FindEPs tombstone_table 7 "" ""
             = Some (List.filter (findMatch 7 "" "") all).
Proof.
  split; [exact tombstone_table_allocated |].
  apply (proj1 (lookups_return_matching_entries tombstone_table tombstone_table_allocated)).
Defined.

(** ** Update *)

Lemma allocated_cons (h : gmap ptr Endpoint) a (l : list ptr) :
  allocated h (a :: l) → is_Some (h !! a) ∧ allocated h l.
Proof.
  intros Hal. split; [apply Hal; left |]. intros b Hb. apply Hal. right. exact Hb.
Qed.

Lemma updateEndpoint_loop_found (h : gmap ptr Endpoint) (p : ptr) (o : Endpoint) (l : list ptr) :
  h !! p = Some o → allocated h l →
  ∀ i a ep, firstLiveMatch h o l i a ep →
            updateEndpoint_loop h p l = Some (Some (<[a := SetFrom ep o]> h)).
Proof.
  intros Hp. induction l as [| b l IH]; intros Hal i a ep (Hi & Ha & Hlive & Heq & Hbefore).
  - destruct i; discriminate Hi.
  - apply allocated_cons in Hal. destruct Hal as [[e He] Hal]. simpl. rewrite He. simpl.
    destruct i as [| i]; simpl in Hi.
    + inversion Hi; subst b. rewrite Ha in He. inversion He; subst e.
      rewrite Hlive, Hp. simpl. rewrite Heq. reflexivity.
    + assert (Hskip : isDeleted e = true ∨ EqualsByID e o = false).
      { apply (Hbefore 0%nat b e); [lia | reflexivity | exact He]. }
      assert (Hrest : updateEndpoint_loop h p l = Some (Some (<[a := SetFrom ep o]> h))).
      { apply (IH Hal i a ep). repeat split; auto.
        intros j c e' Hj Hc He'. apply (Hbefore (S j) c e'); [lia | exact Hc | exact He']. }
      destruct (isDeleted e) eqn:Hd; [exact Hrest |].
      rewrite Hp. simpl. destruct Hskip as [Hskip | Hskip]; [discriminate |].
      rewrite Hskip. exact Hrest.
Qed.

Lemma updateEndpoint_loop_none (h : gmap ptr Endpoint) (p : ptr) (o : Endpoint) (l : list ptr) :
  h !! p = Some o → allocated h l → noLiveMatch h o l →
  updateEndpoint_loop h p l = Some None.
Proof.
  intros Hp. induction l as [| b l IH]; intros Hal Hnone; [reflexivity |].
  apply allocated_cons in Hal. destruct Hal as [[e He] Hal]. simpl. rewrite He. simpl.
  assert (Hrest : updateEndpoint_loop h p l = Some None).
  { apply IH; [exact Hal |]. intros a e' Ha. apply Hnone. right. exact Ha. }
  destruct (Hnone b e) as [Hd | Hne]; [left | exact He | |].
  - rewrite Hd. exact Hrest.
  - destruct (isDeleted e); [exact Hrest |]. rewrite Hp. simpl. rewrite Hne. exact Hrest.
Qed.

Lemma firstLiveMatch_or_none (h : gmap ptr Endpoint) (o : Endpoint) (l : list ptr) :
  allocated h l →
  (∃ i a ep, firstLiveMatch h o l i a ep) ∨ noLiveMatch h o l.
Proof.
  induction l as [| b l IH]; intros Hal.
  - right. intros a e Ha. inversion Ha.
  - apply allocated_cons in Hal. destruct Hal as [[e He] Hal].
    destruct (isDeleted e) eqn:Hd; [| destruct (EqualsByID e o) eqn:Heq].
    2: { left. exists 0%nat, b, e. repeat split; auto. intros j c e' Hj. lia. }
    all: destruct (IH Hal) as [(i & a & ep & Hi & Ha & Hlive & Hm & Hbefore) | Hnone];
      [ left; exists (S i), a, ep; repeat split; auto;
        intros j c e' Hj Hc He'; destruct j as [| j]; simpl in Hc;
        [ inversion Hc; subst c; rewrite He in He'; inversion He'; subst e'; auto
        | apply (Hbefore j c e'); auto; lia ]
      | right; intros a e' Ha He'; apply elem_of_cons in Ha; destruct Ha as [-> | Ha];
        [ rewrite He in He'; inversion He'; subst e'; auto
        | apply (Hnone a e'); auto ] ].
Qed.

Lemma SetFrom_updatedFrom (ep o : Endpoint) : updatedFrom ep o (SetFrom ep o).
Proof.
  unfold updatedFrom, SetFrom; simpl.
  repeat split; try reflexivity.
  - destruct (ContainerIDs o); [reflexivity | congruence].
  - intros ->. reflexivity.
  - intros H. apply Z.eqb_neq in H. rewrite H. reflexivity.
  - intros ->. reflexivity.
  - destruct (IPv4 o); [reflexivity | congruence].
  - intros ->. reflexivity.
  - destruct (IPv6 o); [reflexivity | congruence].
  - intros ->. reflexivity.
  - intros H. apply String.eqb_neq in H. rewrite H. reflexivity.
  - intros ->. reflexivity.
  - intros H. apply String.eqb_neq in H. rewrite H. reflexivity.
  - intros ->. reflexivity.
Qed.

(** C4, as stated, fails in both of its parts.  An endpoint that carries
    a deleted-at and matches no live entry is appended as it is, as a
    tombstone and not as a live entry.  And a live entry that is matched
    by an update whose [IPv4] and [ContainerIDs] are nil keeps its
    address and its container ids: they are not overwritten from the
    update. *)
Lemma UpdateEndpoint_skips_zero_fields_and_appends_tombstone :
  (UpdateEndpoint empty_table 1%nat = Some tombstone_table
   ∧ eps tombstone_table = [1%nat]
   ∧ store tombstone_table !! 1%nat = Some stored_endpoint
   ∧ isDeleted stored_endpoint = true)
  ∧ (store addressed_table !! 1%nat = Some addressed_endpoint
     ∧ store addressed_table !! 2%nat = Some bare_update
     ∧ isDeleted addressed_endpoint = false
     ∧ EqualsByID addressed_endpoint bare_update = true
     ∧ UpdateEndpoint addressed_table 2%nat = Some addressed_table
     ∧ IPv4 bare_update = None
     ∧ IPv4 addressed_endpoint = Some [x0a; x00; x00; x01]
     ∧ ContainerIDs bare_update = None
     ∧ ContainerIDs addressed_endpoint = Some ["c1"]).
Proof. repeat split; reflexivity. Qed.

(** C4, amended: on a table whose pointers are allocated,
    [UpdateEndpoint] with the endpoint [o] at [updateEp] either finds a
    first live entry that equals [o] by id (tombstones are skipped) or
    finds none.  In the first case that entry has each of its fields
    ContainerIDs, ID, IPv4, IPv6, PodName and PodNamespace overwritten
    from [o] where [o]'s field is not zero-valued and kept where it is,
    its time fields are kept, and the list of entries and every other
    endpoint are unchanged (nothing is appended); in the second the
    pointer [updateEp] itself is appended as the last entry and no
    endpoint is changed, so that the new entry is a tombstone when [o]
    carries a deleted-at. *)
Theorem UpdateEndpoint_upserts (es : Endpoints) (updateEp : ptr) (o : Endpoint) :
  allocated (store es) (eps es) →
  store es !! updateEp = Some o →
  ((∃ i a ep, firstLiveMatch (store es) o (eps es) i a ep)
   ∨ noLiveMatch (store es) o (eps es))
  ∧ (∀ i a ep, firstLiveMatch (store es) o (eps es) i a ep →
               ∃ ep', UpdateEndpoint es updateEp
                      = Some (mkEndpoints (<[a := ep']> (store es)) (eps es))
                      ∧ updatedFrom ep o ep')
  ∧ (noLiveMatch (store es) o (eps es) →
     UpdateEndpoint es updateEp = Some (mkEndpoints (store es) (eps es ++ [updateEp]))
     ∧ (eps es ++ [updateEp]) !! length (eps es) = Some updateEp).
Proof.
  intros Hal Hp. split; [apply firstLiveMatch_or_none; exact Hal |]. split.
  - intros i a ep Hfirst. exists (SetFrom ep o). split; [| apply SetFrom_updatedFrom].
    unfold UpdateEndpoint, updateEndpoint.
    rewrite (updateEndpoint_loop_found _ _ _ _ Hp Hal i a ep Hfirst). reflexivity.
  - intros Hnone. split; [| apply list_lookup_middle; reflexivity].
    unfold UpdateEndpoint, updateEndpoint.
    rewrite (updateEndpoint_loop_none _ _ _ _ Hp Hal Hnone). reflexivity.
Qed.

Lemma live_table_allocated : allocated (store live_table) (eps live_table).
Proof.
  intros a Ha. apply list_elem_of_singleton in Ha. subst a.
  exists tracked_without_pod. reflexivity.
Qed.

Lemma live_table_first_match :
  firstLiveMatch (store live_table) update_with_pod (eps live_table)
                 0%nat 1%nat tracked_without_pod.
Proof. repeat split; try reflexivity. intros j b e Hj. lia. Qed.

Lemma UpdateEndpoint_upserts_witness :
  allocated (store live_table) (eps live_table)
  ∧ store live_table !! 2%nat = Some update_with_pod
  ∧ firstLiveMatch (store live_table) update_with_pod (eps live_table)
                   0%nat 1%nat tracked_without_pod
  ∧ ∃ ep', UpdateEndpoint live_table 2%nat
           = Some (mkEndpoints (<[1%nat := ep']> (store live_table)) (eps live_table))
           ∧ updatedFrom tracked_without_pod update_with_pod ep'.
Proof.
  split; [exact live_table_allocated |]. split; [reflexivity |].
  split; [exact live_table_first_match |].
  apply (proj1 (proj2 (UpdateEndpoint_upserts live_table 2%nat update_with_pod
                         live_table_allocated eq_refl))
           0%nat 1%nat tracked_without_pod live_table_first_match).
Defined.

(** ** Sync *)

Lemma sync_found_spec (h : gmap ptr Endpoint) (a : ptr) (ep : Endpoint) (newEps : list ptr) :
  h !! a = Some ep → allocated h newEps →
  (sync_found h a newEps = Some false ∧ matchesNone h ep newEps)
  ∨ (sync_found h a newEps = Some true
     ∧ ∃ u o, u ∈ newEps ∧ h !! u = Some o ∧ EqualsByID ep o = true).
Proof.
  intros Ha. induction newEps as [| u rest IH]; intros Hal; simpl.
  - left. split; [reflexivity |]. intros u o Hu. inversion Hu.
  - apply allocated_cons in Hal. destruct Hal as [[o Ho] Hal].
    rewrite Ha, Ho. simpl. destruct (EqualsByID ep o) eqn:Heq.
    + right. split; [reflexivity |]. exists u, o. split; [left | auto].
    + destruct (IH Hal) as [[Hf Hnone] | [Hf (u' & o' & Hu' & Ho' & Heq')]].
      * left. split; [exact Hf |]. intros u' o' Hu' Ho'.
        apply elem_of_cons in Hu'. destruct Hu' as [-> | Hu'].
        -- rewrite Ho in Ho'. inversion Ho'; subst o'. exact Heq.
        -- apply (Hnone u' o'); auto.
      * right. split; [exact Hf |]. exists u', o'. split; [right; exact Hu' | auto].
Qed.

Lemma matchesNone_stamp (h : gmap ptr Endpoint) (a : ptr) (ep : Endpoint) d
    (e0 : Endpoint) (newEps : list ptr) :
  h !! a = Some ep →
  matchesNone (<[a := set_Deleted d ep]> h) e0 newEps ↔ matchesNone h e0 newEps.
Proof.
  intros Ha. split; intros H u o Hu Ho.
  - destruct (decide (u = a)) as [-> | Hne].
    + rewrite Ha in Ho. inversion Ho; subst o.
      rewrite <- (EqualsByID_set_Deleted_r d).
      apply (H a); [exact Hu | apply lookup_insert_eq].
    + apply (H u); [exact Hu |]. rewrite lookup_insert_ne by congruence. exact Ho.
  - destruct (decide (u = a)) as [-> | Hne].
    + rewrite lookup_insert_eq in Ho. inversion Ho; subst o.
      rewrite EqualsByID_set_Deleted_r. apply (H a); auto.
    + rewrite lookup_insert_ne in Ho by congruence. apply (H u); auto.
Qed.

Lemma allocated_insert (h : gmap ptr Endpoint) (a : ptr) (e : Endpoint) (l : list ptr) :
  allocated h l → allocated (<[a := e]> h) l.
Proof.
  intros Hal b Hb. destruct (decide (b = a)) as [-> | Hne].
  - rewrite lookup_insert_eq. eauto.
  - rewrite lookup_insert_ne by congruence. apply Hal. exact Hb.
Qed.

(** The first loop of [SyncEndpoints] runs to its end; an endpoint of
    the store is either left as it was or, when it is a live entry of the
    table that equals no element of [newEps], stamped with a reading of
    the clock. *)
Lemma sync_mark_spec (now : nat → Time) (newEps : list ptr) (l : list ptr) :
  ∀ k h, allocated h l → allocated h newEps →
  ∃ h', sync_mark now k h newEps l = Some h'
        ∧ (∀ a, h !! a = None → h' !! a = None)
        ∧ (∀ a ep, h !! a = Some ep →
             h' !! a = Some ep
             ∨ (a ∈ l ∧ isDeleted ep = false ∧ matchesNone h ep newEps
                ∧ ∃ j, h' !! a = Some (set_Deleted (Some (now j)) ep)))
        ∧ (∀ a ep, a ∈ l → h !! a = Some ep → isDeleted ep = false →
             matchesNone h ep newEps →
             ∃ j, h' !! a = Some (set_Deleted (Some (now j)) ep)).
Proof.
  induction l as [| b l IH]; intros k h Hal Hnew; simpl.
  - exists h. split; [reflexivity |]. split; [auto |]. split; [auto |].
    intros a ep Ha. inversion Ha.
  - apply allocated_cons in Hal. destruct Hal as [[e He] Hal]. rewrite He. simpl.
    assert (Hkeep : ∀ h', sync_mark now k h newEps l = Some h' →
              (isDeleted e = true ∨ ¬ matchesNone h e newEps) →
              (∀ a, h !! a = None → h' !! a = None) →
              (∀ a ep, h !! a = Some ep →
                 h' !! a = Some ep
                 ∨ (a ∈ l ∧ isDeleted ep = false ∧ matchesNone h ep newEps
                    ∧ ∃ j, h' !! a = Some (set_Deleted (Some (now j)) ep))) →
              (∀ a ep, a ∈ l → h !! a = Some ep → isDeleted ep = false →
                 matchesNone h ep newEps →
                 ∃ j, h' !! a = Some (set_Deleted (Some (now j)) ep)) →
              ∃ h', sync_mark now k h newEps l = Some h'
                ∧ (∀ a, h !! a = None → h' !! a = None)
                ∧ (∀ a ep, h !! a = Some ep →
                     h' !! a = Some ep
                     ∨ (a ∈ b :: l ∧ isDeleted ep = false ∧ matchesNone h ep newEps
                        ∧ ∃ j, h' !! a = Some (set_Deleted (Some (now j)) ep)))
                ∧ (∀ a ep, a ∈ b :: l → h !! a = Some ep → isDeleted ep = false →
                     matchesNone h ep newEps →
                     ∃ j, h' !! a = Some (set_Deleted (Some (now j)) ep))).
    { intros h' Hrun Hskip HA HB HC. exists h'. split; [exact Hrun |].
      split; [exact HA |]. split.
      - intros a ep Ha. destruct (HB a ep Ha) as [Hsame | (Hin & Hrest)]; [left; exact Hsame |].
        right. split; [right; exact Hin | exact Hrest].
      - intros a ep Hin Ha Hlive Hnone.
        apply elem_of_cons in Hin. destruct Hin as [-> | Hin]; [| apply HC; auto].
        rewrite He in Ha. inversion Ha; subst ep.
        destruct Hskip as [Hd | Hm]; [congruence | contradiction]. }
    destruct (isDeleted e) eqn:Hd.
    { destruct (IH k h Hal Hnew) as (h' & Hrun & HA & HB & HC).
      apply (Hkeep h'); auto. }
    destruct (sync_found_spec h b e newEps He Hnew)
      as [[Hf Hnone] | [Hf (u & o & Hu & Ho & Heq)]]; rewrite Hf; simpl.
    2: { destruct (IH k h Hal Hnew) as (h' & Hrun & HA & HB & HC).
         apply (Hkeep h'); auto. right. intros Hnone.
         rewrite (Hnone u o Hu Ho) in Heq. discriminate. }
    set (h2 := <[b := set_Deleted (Some (now k)) e]> h).
    destruct (IH (S k) h2) as (h' & Hrun & HA & HB & HC).
    { apply allocated_insert. exact Hal. }
    { apply allocated_insert. exact Hnew. }
    assert (Hb' : h' !! b = Some (set_Deleted (Some (now k)) e)).
    { destruct (HB b (set_Deleted (Some (now k)) e)) as [Hsame | (_ & Hlive & _)];
        [apply lookup_insert_eq | exact Hsame | discriminate Hlive]. }
    exists h'. split; [exact Hrun |]. split; [| split].
    + intros a Ha. apply HA. unfold h2. rewrite lookup_insert_ne; [exact Ha | congruence].
    + intros a ep Ha. destruct (decide (a = b)) as [-> | Hne].
      * rewrite He in Ha. inversion Ha; subst ep. right.
        split; [left |]. split; [exact Hd |]. split; [exact Hnone |]. exists k. exact Hb'.
      * destruct (HB a ep) as [Hsame | (Hin & Hlive & Hnone' & Hj)].
        -- unfold h2. rewrite lookup_insert_ne by congruence. exact Ha.
        -- left. exact Hsame.
        -- right. split; [right; exact Hin |]. split; [exact Hlive |].
           split; [| exact Hj]. apply (matchesNone_stamp h b e (Some (now k))); assumption.
    + intros a ep Hin Ha Hlive Hnone'. destruct (decide (a = b)) as [-> | Hne].
      * rewrite He in Ha. inversion Ha; subst ep. exists k. exact Hb'.
      * apply elem_of_cons in Hin. destruct Hin as [-> | Hin]; [congruence |].
        apply HC; auto.
        -- unfold h2. rewrite lookup_insert_ne by congruence. exact Ha.
        -- apply (matchesNone_stamp h b e (Some (now k))); assumption.
Qed.

(** One call of [updateEndpoint] returns, keeps every pointer allocated,
    keeps the time fields of every endpoint and only ever appends to the
    list of entries. *)
Lemma updateEndpoint_preserves (es : Endpoints) (p : ptr) :
  allocated (store es) (eps es) → is_Some (store es !! p) →
  ∃ es', updateEndpoint es p = Some es'
         ∧ allocated (store es') (eps es')
         ∧ (∀ a ep, store es !! a = Some ep →
              ∃ ep', store es' !! a = Some ep'
                     ∧ Created ep' = Created ep ∧ Deleted ep' = Deleted ep)
         ∧ eps es `prefix_of` eps es'.
Proof.
  intros Hal [o Hp]. unfold updateEndpoint.
  destruct (firstLiveMatch_or_none (store es) o (eps es) Hal)
    as [(i & a & ep & Hfirst) | Hnone].
  - rewrite (updateEndpoint_loop_found _ _ _ _ Hp Hal i a ep Hfirst). simpl.
    eexists. split; [reflexivity |]. simpl. split; [| split].
    + apply allocated_insert. exact Hal.
    + intros b e Hb. destruct (decide (b = a)) as [-> | Hne].
      * destruct Hfirst as (_ & Ha & _). rewrite Ha in Hb. inversion Hb; subst e.
        exists (SetFrom ep o). split; [apply lookup_insert_eq |]. split; reflexivity.
      * exists e. rewrite lookup_insert_ne by congruence. auto.
    + reflexivity.
  - rewrite (updateEndpoint_loop_none _ _ _ _ Hp Hal Hnone). simpl.
    eexists. split; [reflexivity |]. simpl. split; [| split].
    + intros b Hb. apply elem_of_app in Hb. destruct Hb as [Hb | Hb]; [apply Hal; exact Hb |].
      apply list_elem_of_singleton in Hb. subst b. eauto.
    + intros b e Hb. exists e. auto.
    + apply prefix_app_r. reflexivity.
Qed.

Lemma sync_update_preserves (newEps : list ptr) :
  ∀ es, allocated (store es) (eps es) → allocated (store es) newEps →
  ∃ es', sync_update es newEps = Some es'
         ∧ allocated (store es') (eps es')
         ∧ (∀ a ep, store es !! a = Some ep →
              ∃ ep', store es' !! a = Some ep'
                     ∧ Created ep' = Created ep ∧ Deleted ep' = Deleted ep)
         ∧ eps es `prefix_of` eps es'.
Proof.
  induction newEps as [| u rest IH]; intros es Hal Hnew; simpl.
  - exists es. split; [reflexivity |]. split; [exact Hal |]. split; [eauto | reflexivity].
  - apply allocated_cons in Hnew. destruct Hnew as [Hu Hnew].
    destruct (updateEndpoint_preserves es u Hal Hu) as (es1 & Hrun & Hal1 & Htime1 & Hpre1).
    rewrite Hrun. simpl.
    destruct (IH es1 Hal1) as (es' & Hrun' & Hal' & Htime' & Hpre').
    { intros b Hb. destruct (Hnew b Hb) as [e He].
      destruct (Htime1 b e He) as (e' & He' & _). eauto. }
    exists es'. split; [exact Hrun' |]. split; [exact Hal' |]. split.
    + intros a ep Ha. destruct (Htime1 a ep Ha) as (ep1 & Ha1 & Hc1 & Hd1).
      destruct (Htime' a ep1 Ha1) as (ep' & Ha' & Hc' & Hd').
      exists ep'. split; [exact Ha' |]. split; congruence.
    + etransitivity; eassumption.
Qed.

(** C3, as stated, fails at the empty list: the call returns at once,
    and a tracked live endpoint, which equals no element of the empty
    list, is left live. *)
Lemma SyncEndpoints_empty_list_marks_nothing :
  SyncEndpoints sync_clock live_table [] = Some live_table
  ∧ eps live_table = [1%nat]
  ∧ store live_table !! 1%nat = Some tracked_without_pod
  ∧ Deleted tracked_without_pod = None
  ∧ matchesNone (store live_table) tracked_without_pod [].
Proof.
  repeat split; try reflexivity. intros u o Hu. inversion Hu.
Qed.

(** C3, amended: [SyncEndpoints] with the empty list leaves the table as
    it is.  With a list [newEps] that is not empty, on a table whose
    pointers are allocated, the first loop runs to a store [h] in which
    every tracked live endpoint that equals no element of [newEps] by id
    carries a deleted-at read from the clock and every other endpoint,
    the tombstones among them, is as before; the second loop then calls
    [updateEndpoint] on every element of [newEps] in turn, which keeps
    the time fields of every endpoint and only appends to the list of
    entries. *)
Theorem SyncEndpoints_reconciles (now : nat → Time) (es : Endpoints) (newEps : list ptr) :
  allocated (store es) (eps es) →
  allocated (store es) newEps →
  (newEps = [] → SyncEndpoints now es newEps = Some es)
  ∧ (newEps ≠ [] →
     ∃ h es',
       sync_mark now 0 (store es) newEps (eps es) = Some h
       ∧ (∀ a ep, a ∈ eps es → store es !! a = Some ep → isDeleted ep = false →
            matchesNone (store es) ep newEps →
            ∃ k, h !! a = Some (set_Deleted (Some (now k)) ep))
       ∧ (∀ a ep, store es !! a = Some ep →
            isDeleted ep = true ∨ a ∉ eps es ∨ ¬ matchesNone (store es) ep newEps →
            h !! a = Some ep)
       ∧ sync_update (mkEndpoints h (eps es)) newEps = Some es'
       ∧ SyncEndpoints now es newEps = Some es'
       ∧ (∀ a ep, h !! a = Some ep →
            ∃ ep', store es' !! a = Some ep'
                   ∧ Created ep' = Created ep ∧ Deleted ep' = Deleted ep)
       ∧ eps es `prefix_of` eps es').
Proof.
  intros Hal Hnew. split.
  - intros ->. reflexivity.
  - intros Hne.
    destruct (sync_mark_spec now newEps (eps es) 0%nat (store es) Hal Hnew)
      as (h & Hmark & HA & HB & HC).
    assert (Hdom : ∀ a, is_Some (store es !! a) → is_Some (h !! a)).
    { intros a [ep Ha]. destruct (HB a ep Ha) as [Hs | (_ & _ & _ & j & Hs)]; eauto. }
    destruct (sync_update_preserves newEps (mkEndpoints h (eps es)))
      as (es' & Hrun & _ & Htime & Hpre).
    { intros a Ha. apply Hdom. apply Hal. exact Ha. }
    { intros a Ha. apply Hdom. apply Hnew. exact Ha. }
    exists h, es'. split; [exact Hmark |]. split; [exact HC |]. split; [| split; [| split]].
    + intros a ep Ha Hwhy.
      destruct (HB a ep Ha) as [Hs | (Hin & Hlive & Hnone & _)]; [exact Hs |].
      destruct Hwhy as [Hd | [Hout | Hm]]; [congruence | contradiction | contradiction].
    + exact Hrun.
    + unfold SyncEndpoints. destruct newEps as [| u rest]; [congruence |].
      rewrite Hmark. simpl. exact Hrun.
    + split; [exact Htime | exact Hpre].
Qed.

Lemma sync_table_allocated :
  allocated (store sync_table) (eps sync_table) ∧ allocated (store sync_table) [2%nat].
Proof.
  split; intros a Ha.
  - apply elem_of_cons in Ha. destruct Ha as [-> | Ha]; [eexists; reflexivity |].
    apply list_elem_of_singleton in Ha. subst a. eexists; reflexivity.
  - apply list_elem_of_singleton in Ha. subst a. eexists; reflexivity.
Qed.

Lemma SyncEndpoints_reconciles_witness :
  allocated (store sync_table) (eps sync_table)
  ∧ allocated (store sync_table) [2%nat]
  ∧ [2%nat] ≠ []
  ∧ SyncEndpoints sync_clock sync_table [2%nat]
  = Some (mkEndpoints
            {[ 1%nat := SetFrom tracked_without_pod update_with_pod;
               2%nat := update_with_pod;
               3%nat := set_Deleted (Some 1000) other_endpoint ]}
            [1%nat; 3%nat])
  ∧ ∃ h es',
      sync_mark sync_clock 0 (store sync_table) [2%nat] (eps sync_table) = Some h
      ∧ sync_update (mkEndpoints h (eps sync_table)) [2%nat] = Some es'
      ∧ SyncEndpoints sync_clock sync_table [2%nat] = Some es'.
Proof.
  split; [exact (proj1 sync_table_allocated) |].
  split; [exact (proj2 sync_table_allocated) |].
  split; [discriminate |].
  split; [vm_compute; reflexivity |].
  destruct (proj2 (SyncEndpoints_reconciles sync_clock sync_table [2%nat]
                     (proj1 sync_table_allocated) (proj2 sync_table_allocated)))
    as (h & es' & Hmark & _ & _ & Hrun & Hsync & _).
  - discriminate.
  - exists h, es'. auto.
Defined.

(** ** CIDR label filtering *)

(** The cases of [Test_filterCidrLabels]. *)
Example filterCidrLabels_mixed :
  Labels.filterCidrLabels ["b"; "cidr:1.1.1.1/23"; "a"; "d"; "cidr:1.1.1.1/24"]
  = ["b"; "a"; "d"; "cidr:1.1.1.1/24"].
Proof. reflexivity. Qed.

Example filterCidrLabels_no_cidr :
  Labels.filterCidrLabels ["b"; "c"; "a"] = ["b"; "c"; "a"].
Proof. reflexivity. Qed.

Example filterCidrLabels_cidr_only :
  Labels.filterCidrLabels ["cidr:1.1.1.1/0"; "cidr:1.1.1.1/32"; "cidr:1.1.1.1/16"]
  = ["cidr:1.1.1.1/32"].
Proof. reflexivity. Qed.

Lemma prefixLen_isCidrLabel (label : string) (n : nat) :
  Labels.prefixLen label = Some n → Labels.isCidrLabel label = true.
Proof.
  unfold Labels.prefixLen. destruct (Labels.isCidrLabel label); [reflexivity | discriminate].
Qed.

Lemma mostSpecific_spec (labels : list string) :
  ∀ best,
    match Labels.mostSpecific best labels with
    | None => best = None ∧ ∀ l, l ∈ labels → Labels.prefixLen l = None
    | Some (l, n) =>
        (best = Some (l, n) ∨ (l ∈ labels ∧ Labels.prefixLen l = Some n))
        ∧ (∀ l' n', l' ∈ labels → Labels.prefixLen l' = Some n' → (n' ≤ n)%nat)
        ∧ (∀ l0 n0, best = Some (l0, n0) → (n0 ≤ n)%nat)
    end.
Proof.
  induction labels as [| x rest IH]; intros best; simpl.
  - destruct best as [[l n] |].
    + split; [left; reflexivity |]. split.
      * intros l' n' Hin. inversion Hin.
      * intros l0 n0 H. inversion H. lia.
    + split; [reflexivity |]. intros l Hin. inversion Hin.
  - destruct (Labels.prefixLen x) as [n |] eqn:Hx.
    + destruct best as [[l0 m] |].
      * destruct (m <? n)%nat eqn:Hlt.
        -- apply Nat.ltb_lt in Hlt. specialize (IH (Some (x, n))).
           destruct (Labels.mostSpecific (Some (x, n)) rest) as [[l k] |].
           ++ destruct IH as (Hsrc & Hmax & Hbest). specialize (Hbest x n eq_refl).
              split; [| split].
              ** right. destruct Hsrc as [Heq | [Hin Hl]].
                 --- inversion Heq; subst. split; [left | exact Hx].
                 --- split; [right; exact Hin | exact Hl].
              ** intros l' n' Hin Hl'. apply elem_of_cons in Hin.
                 destruct Hin as [-> | Hin]; [| eauto].
                 rewrite Hx in Hl'. inversion Hl'. lia.
              ** intros l1 n1 H. inversion H. lia.
           ++ destruct IH as [H _]. discriminate H.
        -- apply Nat.ltb_ge in Hlt. specialize (IH (Some (l0, m))).
           destruct (Labels.mostSpecific (Some (l0, m)) rest) as [[l k] |].
           ++ destruct IH as (Hsrc & Hmax & Hbest). specialize (Hbest l0 m eq_refl).
              split; [| split].
              ** destruct Hsrc as [Heq | [Hin Hl]]; [left; exact Heq |].
                 right. split; [right; exact Hin | exact Hl].
              ** intros l' n' Hin Hl'. apply elem_of_cons in Hin.
                 destruct Hin as [-> | Hin]; [| eauto].
                 rewrite Hx in Hl'. inversion Hl'. lia.
              ** intros l1 n1 H. inversion H. lia.
           ++ destruct IH as [H _]. discriminate H.
      * specialize (IH (Some (x, n))).
        destruct (Labels.mostSpecific (Some (x, n)) rest) as [[l k] |].
        -- destruct IH as (Hsrc & Hmax & Hbest). specialize (Hbest x n eq_refl).
           split; [| split].
           ++ right. destruct Hsrc as [Heq | [Hin Hl]].
              ** inversion Heq; subst. split; [left | exact Hx].
              ** split; [right; exact Hin | exact Hl].
           ++ intros l' n' Hin Hl'. apply elem_of_cons in Hin.
              destruct Hin as [-> | Hin]; [| eauto].
              rewrite Hx in Hl'. inversion Hl'. lia.
           ++ intros l1 n1 H. discriminate H.
        -- destruct IH as [H _]. discriminate H.
    + specialize (IH best).
      destruct (Labels.mostSpecific best rest) as [[l k] |].
      * destruct IH as (Hsrc & Hmax & Hbest). split; [| split].
        -- destruct Hsrc as [Heq | [Hin Hl]]; [left; exact Heq |].
           right. split; [right; exact Hin | exact Hl].
        -- intros l' n' Hin Hl'. apply elem_of_cons in Hin.
           destruct Hin as [-> | Hin]; [| eauto].
           rewrite Hx in Hl'. discriminate Hl'.
        -- exact Hbest.
      * destruct IH as [Hb Hnone]. split; [exact Hb |].
        intros l Hin. apply elem_of_cons in Hin. destruct Hin as [-> | Hin]; auto.
Qed.

Lemma filter_negb_filter {A} (f : A → bool) (l : list A) :
  List.filter f (List.filter (λ x, negb (f x)) l) = [].
Proof.
  induction l as [| x l IH]; simpl; [reflexivity |].
  destruct (f x) eqn:Hx; simpl; [exact IH |]. rewrite Hx. exact IH.
Qed.

Lemma filter_filter_same {A} (f : A → bool) (l : list A) :
  List.filter f (List.filter f l) = List.filter f l.
Proof.
  induction l as [| x l IH]; simpl; [reflexivity |].
  destruct (f x) eqn:Hx; simpl; [rewrite Hx, IH; reflexivity | exact IH].
Qed.

(** C6: for every label list [L], the result of [filterCidrLabels] holds
    at most one label prefixed [cidr:]; that label is a label of [L]
    whose prefix length is the largest among the CIDR labels of [L] (and
    there is one whenever [L] has a CIDR label with a prefix length); the
    labels that are not CIDR labels are those of [L], in their order;
    and the empty list yields the empty list. *)
Theorem filterCidrLabels_most_specific (L : list string) :
  (length (List.filter Labels.isCidrLabel (Labels.filterCidrLabels L)) ≤ 1)%nat
  ∧ (∀ l, l ∈ Labels.filterCidrLabels L → Labels.isCidrLabel l = true →
          l ∈ L ∧ ∃ n, Labels.prefixLen l = Some n
                       ∧ ∀ l' n', l' ∈ L → Labels.prefixLen l' = Some n' → (n' ≤ n)%nat)
  ∧ ((∃ l n, l ∈ L ∧ Labels.prefixLen l = Some n) →
     ∃ l, l ∈ Labels.filterCidrLabels L ∧ Labels.isCidrLabel l = true)
  ∧ List.filter (λ l, negb (Labels.isCidrLabel l)) (Labels.filterCidrLabels L)
    = List.filter (λ l, negb (Labels.isCidrLabel l)) L
  ∧ Labels.filterCidrLabels [] = [].
Proof.
  unfold Labels.filterCidrLabels.
  pose proof (mostSpecific_spec L None) as Hspec.
  destruct (Labels.mostSpecific None L) as [[best n] |].
  - destruct Hspec as ([Hb | [Hin Hlen]] & Hmax & _); [discriminate |].
    pose proof (prefixLen_isCidrLabel best n Hlen) as Hcidr.
    split; [| split; [| split; [| split]]].
    + rewrite List.filter_app, filter_negb_filter. simpl. rewrite Hcidr. simpl. lia.
    + intros l Hl Hc. apply elem_of_app in Hl. destruct Hl as [Hl | Hl].
      * apply list_elem_of_In, List.filter_In in Hl. destruct Hl as [_ Hl].
        rewrite Hc in Hl. discriminate Hl.
      * apply list_elem_of_singleton in Hl. subst l. split; [exact Hin |].
        exists n. split; [exact Hlen | exact Hmax].
    + intros _. exists best. split; [| exact Hcidr].
      apply elem_of_app. right. left.
    + rewrite List.filter_app, filter_filter_same. simpl. rewrite Hcidr. simpl.
      apply app_nil_r.
    + reflexivity.
  - destruct Hspec as [_ Hnone]. rewrite !app_nil_r.
    split; [| split; [| split; [| split]]].
    + rewrite filter_negb_filter. simpl. lia.
    + intros l Hl Hc. apply list_elem_of_In, List.filter_In in Hl. destruct Hl as [_ Hl].
      rewrite Hc in Hl. discriminate Hl.
    + intros (l & n & Hin & Hlen). rewrite (Hnone l Hin) in Hlen. discriminate Hlen.
    + apply filter_filter_same.
    + reflexivity.
Qed.

Lemma filterCidrLabels_most_specific_witness :
  (∃ l n, l ∈ ["b"; "cidr:1.1.1.1/23"; "a"; "d"; "cidr:1.1.1.1/24"]
          ∧ Labels.prefixLen l = Some n)
  ∧ ∃ l, l ∈ Labels.filterCidrLabels ["b"; "cidr:1.1.1.1/23"; "a"; "d"; "cidr:1.1.1.1/24"]
         ∧ Labels.isCidrLabel l = true.
Proof.
  assert (Hcidr : ∃ l n, l ∈ ["b"; "cidr:1.1.1.1/23"; "a"; "d"; "cidr:1.1.1.1/24"]
                         ∧ Labels.prefixLen l = Some n).
  { exists "cidr:1.1.1.1/23", 23%nat. split; [right; left | reflexivity]. }
  split; [exact Hcidr |].
  apply (proj1 (proj2 (proj2 (filterCidrLabels_most_specific
                                ["b"; "cidr:1.1.1.1/23"; "a"; "d"; "cidr:1.1.1.1/24"])))).
  exact Hcidr.
Defined.

(** ** Original source IP of trace events *)

Lemma decodeTrace_total (tn : Parser.TraceNotify) (p : Parser.Packet) :
  Parser.Version tn = 0 ∨ Parser.Version tn = 1 →
  ∃ f, Parser.decodeTrace tn (Some p) = inr f.
Proof.
  intros Hv. unfold Parser.decodeTrace,
    Parser.TraceNotifyVersion0, Parser.TraceNotifyVersion1.
  destruct Hv as [-> | ->]; simpl; eauto.
Qed.

(** C7: a trace event decodes when its header is version 0 or 1 and its
    packet could be read; in the flow of every decoded trace event the
    L3 source IP is the original IP when the header is version 1 and
    carries a non-zero original IP, and the source IP of the embedded
    packet when the original IP is zero or the header is version 0. *)
Theorem decodeTrace_original_ip (tn : Parser.TraceNotify) (p : Parser.Packet) :
  (∀ f, Parser.decodeTrace tn (Some p) = inr f →
        (Parser.Version tn = 1 → Parser.isZero (Parser.OrigIP tn) = false →
         Parser.ip_source f = Parser.OrigIP tn)
        ∧ (Parser.isZero (Parser.OrigIP tn) = true ∨ Parser.Version tn = 0 →
           Parser.ip_source f = Parser.SrcIP p))
  ∧ (Parser.Version tn = 0 ∨ Parser.Version tn = 1 →
     ∃ f, Parser.decodeTrace tn (Some p) = inr f).
Proof.
  split; [| apply decodeTrace_total].
  intros f. unfold Parser.decodeTrace, Parser.OriginalIP,
    Parser.TraceNotifyVersion0, Parser.TraceNotifyVersion1.
  destruct (Parser.Version tn =? 0) eqn:H0; destruct (Parser.Version tn =? 1) eqn:H1;
    simpl; intros Hf; try discriminate Hf; inversion Hf; subst f; clear Hf; simpl.
  - apply Z.eqb_eq in H0, H1. congruence.
  - apply Z.eqb_eq in H0. split; [intros Hv; congruence | reflexivity].
  - apply Z.eqb_eq in H1. apply Z.eqb_neq in H0. split.
    + intros _ Hnz. rewrite Hnz. reflexivity.
    + intros [Hz | Hv]; [rewrite Hz; reflexivity | congruence].
Qed.

Lemma decodeTrace_original_ip_witness :
  Parser.Version scenario3_header = 1
  ∧ Parser.isZero (Parser.OrigIP scenario3_header) = false
  ∧ ∃ f, Parser.decodeTrace scenario3_header (Some scenario3_packet) = inr f
         ∧ Parser.ip_source f = scenario3_origIP.
Proof.
  split; [reflexivity |]. split; [reflexivity |].
  destruct (decodeTrace_original_ip scenario3_header scenario3_packet) as [Hsrc Htot].
  destruct Htot as [f Hf]; [right; reflexivity |].
  exists f. split; [exact Hf |].
  apply (proj1 (Hsrc f Hf)); reflexivity.
Defined.

(** ** Stale updates of the IP cache *)

(** C8: an upsert whose old identity is present and differs from the
    identity stored for the CIDR leaves the cache as it is; after the
    bootstrap and the notifications of scenario 5, [GetPodNameOf]
    answers (ns-1, pod-1, true), (ns-2, pod-2, true), (ns-3, pod-3, true)
    and (empty, empty, false) for 1.1.1.1, 2.2.2.2, 3.3.3.3 and 4.4.4.4. *)
Theorem Upsert_stale_is_noop :
  (∀ (c : gmap IPCache.CIDR IPCache.Entry) cidr e newIdentity old hostIP oldHostIP
     encryptKey namespace pod,
      c !! cidr = Some e → IPCache.Identity e ≠ old →
      IPCache.Upsert c cidr newIdentity (Some old) hostIP oldHostIP encryptKey namespace pod
      = c)
  ∧ IPCache.GetPodNameOf scenario5_cache (IPCache.ipv4 1 1 1 1) = ("ns-1", "pod-1", true)
  ∧ IPCache.GetPodNameOf scenario5_cache (IPCache.ipv4 2 2 2 2) = ("ns-2", "pod-2", true)
  ∧ IPCache.GetPodNameOf scenario5_cache (IPCache.ipv4 3 3 3 3) = ("ns-3", "pod-3", true)
  ∧ IPCache.GetPodNameOf scenario5_cache (IPCache.ipv4 4 4 4 4) = ("", "", false).
Proof.
  split; [| repeat split; vm_compute; reflexivity].
  intros c cidr e newIdentity old hostIP oldHostIP encryptKey namespace pod Hc Hne.
  unfold IPCache.Upsert. rewrite Hc.
  apply Z.eqb_neq in Hne. rewrite Hne. reflexivity.
Qed.

Lemma Upsert_stale_is_noop_witness :
  ({[ (IPCache.ipv4 3 3 3 3, 32%nat) := IPCache.mkEntry 100 None ]}
     : gmap IPCache.CIDR IPCache.Entry) !! (IPCache.ipv4 3 3 3 3, 32%nat)
  = Some (IPCache.mkEntry 100 None)
  ∧ IPCache.Identity (IPCache.mkEntry 100 None) ≠ 200
  ∧ IPCache.Upsert {[ (IPCache.ipv4 3 3 3 3, 32%nat) := IPCache.mkEntry 100 None ]}
                   (IPCache.ipv4 3 3 3 3, 32%nat) 100 (Some 200) None None 0 "" ""
    = {[ (IPCache.ipv4 3 3 3 3, 32%nat) := IPCache.mkEntry 100 None ]}.
Proof.
  split; [apply lookup_singleton_eq |]. split; [discriminate |].
  apply (proj1 Upsert_stale_is_noop _ _ (IPCache.mkEntry 100 None)).
  - apply lookup_singleton_eq.
  - discriminate.
Defined.

(** * Further properties of the code *)

(** ** Endpoints, one at a time *)

(** [EqualsByID] reads only the id, pod name and namespace of its
    argument. *)
Lemma EqualsByID_key_r (x y y' : Endpoint) :
  ID y = ID y' → PodName y = PodName y' → PodNamespace y = PodNamespace y' →
  EqualsByID x y = EqualsByID x y'.
Proof. intros Hid Hp Hn. unfold EqualsByID. rewrite Hid, Hp, Hn. reflexivity. Qed.

(** X1: [EqualsByID] is transitive; with reflexivity it is a preorder on
    endpoints (and by the counterexample above not an equivalence). *)
Theorem EqualsByID_transitive (e o q : Endpoint) :
  EqualsByID e o = true → EqualsByID o q = true → EqualsByID e q = true.
Proof.
  intros Heo Hoq. apply EqualsByID_true in Heo. apply EqualsByID_true in Hoq.
  apply EqualsByID_true.
  destruct Heo as [Hid [[Hp Hn] | [Hp Hn]]]; destruct Hoq as [Hid' Hrest].
  - split; [congruence | left; auto].
  - split; [congruence |].
    destruct Hrest as [[Hp' Hn'] | [Hp' Hn']]; [left | right]; split; congruence.
Qed.

Lemma EqualsByID_transitive_witness :
  EqualsByID tracked_without_pod update_with_pod = true
  ∧ EqualsByID update_with_pod update_with_pod = true
  ∧ EqualsByID tracked_without_pod update_with_pod = true.
Proof.
  split; [reflexivity |]. split; [reflexivity |].
  apply (EqualsByID_transitive tracked_without_pod update_with_pod update_with_pod);
    reflexivity.
Defined.

Lemma SetFrom_twice (e o : Endpoint) : SetFrom (SetFrom e o) o = SetFrom e o.
Proof.
  unfold SetFrom; simpl. f_equal.
  - destruct (ContainerIDs o); reflexivity.
  - destruct (ID o =? 0); reflexivity.
  - destruct (IPv4 o); reflexivity.
  - destruct (IPv6 o); reflexivity.
  - destruct (String.eqb (PodName o) ""); reflexivity.
  - destruct (String.eqb (PodNamespace o) ""); reflexivity.
Qed.

(** X2: [SetFrom] is idempotent: setting an endpoint from the same
    source a second time changes nothing, and setting an endpoint from
    itself changes nothing. *)
Theorem SetFrom_idempotent (e o : Endpoint) :
  SetFrom (SetFrom e o) o = SetFrom e o ∧ SetFrom o o = o.
Proof. split; [apply SetFrom_twice | apply SetFrom_self]. Qed.

Lemma SetFrom_key (e o : Endpoint) :
  EqualsByID e o = true →
  ID (SetFrom e o) = ID o
  ∧ PodName (SetFrom e o) = PodName o
  ∧ PodNamespace (SetFrom e o) = PodNamespace o.
Proof.
  intros H. apply EqualsByID_true in H. destruct H as [Hid Hpod].
  split; [| split].
  - unfold SetFrom; simpl. destruct (ID o =? 0); simpl; congruence.
  - unfold SetFrom; simpl. destruct (String.eqb (PodName o) "") eqn:E; simpl; [| reflexivity].
    apply String.eqb_eq in E. destruct Hpod as [[Hp _] | [Hp _]]; congruence.
  - unfold SetFrom; simpl.
    destruct (String.eqb (PodNamespace o) "") eqn:E; simpl; [| reflexivity].
    apply String.eqb_eq in E. destruct Hpod as [[_ Hn] | [_ Hn]]; congruence.
Qed.

Lemma EqualsByID_SetFrom_same (e o : Endpoint) :
  EqualsByID e o = true → EqualsByID (SetFrom e o) o = true.
Proof.
  intros H. destruct (SetFrom_key e o H) as (Hid & Hp & Hn).
  apply EqualsByID_true. split; [exact Hid | right; split; assumption].
Qed.

(** X3: when an endpoint equals a source by id, then after [SetFrom] it
    has the id, pod name and namespace of the source: the two are the
    same endpoint in the symmetric sense of the data model, and each
    equals the other by id. *)
Theorem SetFrom_adopts_identity (e o : Endpoint) :
  EqualsByID e o = true →
  ID (SetFrom e o) = ID o
  ∧ PodName (SetFrom e o) = PodName o
  ∧ PodNamespace (SetFrom e o) = PodNamespace o
  ∧ sameEndpoint_spec (SetFrom e o) o = true
  ∧ EqualsByID (SetFrom e o) o = true
  ∧ EqualsByID o (SetFrom e o) = true.
Proof.
  intros H. destruct (SetFrom_key e o H) as (Hid' & Hp' & Hn').
  split; [exact Hid' |]. split; [exact Hp' |]. split; [exact Hn' |].
  split; [| split].
  - unfold sameEndpoint_spec. rewrite Hid', Hp', Hn'.
    rewrite Z.eqb_refl, !String.eqb_refl. simpl. apply orb_true_r.
  - apply EqualsByID_SetFrom_same. exact H.
  - apply EqualsByID_true. split; [congruence | right; split; congruence].
Qed.

Lemma SetFrom_adopts_identity_witness :
  EqualsByID tracked_without_pod update_with_pod = true
  ∧ PodName (SetFrom tracked_without_pod update_with_pod) = PodName update_with_pod
  ∧ EqualsByID update_with_pod (SetFrom tracked_without_pod update_with_pod) = true.
Proof.
  split; [reflexivity |].
  destruct (SetFrom_adopts_identity tracked_without_pod update_with_pod eq_refl)
    as (_ & Hp & _ & _ & _ & Hsym).
  split; [exact Hp | exact Hsym].
Defined.

(** What an update does to id-equality with a third endpoint. *)
Lemma EqualsByID_SetFrom_r (x e o : Endpoint) :
  EqualsByID e o = true → EqualsByID x (SetFrom e o) = EqualsByID x o.
Proof.
  intros H. destruct (SetFrom_key e o H) as (Hid & Hp & Hn).
  apply EqualsByID_key_r; assumption.
Qed.

Lemma EqualsByID_SetFrom_l (e o y : Endpoint) :
  EqualsByID e o = true → EqualsByID (SetFrom e o) y = true → EqualsByID e y = true.
Proof.
  intros H Hy. destruct (SetFrom_key e o H) as (Hid & Hp & Hn).
  apply EqualsByID_true in H. apply EqualsByID_true in Hy. apply EqualsByID_true.
  destruct H as [Heo Hpod], Hy as [Hidy Hpody].
  split; [congruence |].
  destruct Hpod as [[He1 He2] | [He1 He2]]; [left; auto |].
  destruct Hpody as [[Hy1 Hy2] | [Hy1 Hy2]]; [left | right]; split; congruence.
Qed.

Lemma bytesEqual_refl (a : list byte) : NetIP.bytesEqual a a = true.
Proof.
  induction a as [| x a IH]; simpl; [reflexivity |].
  rewrite (Byte.byte_dec_lb (x:=x) (y:=x) eq_refl), IH. reflexivity.
Qed.

Lemma NetIP_Equal_refl (ip : IP) : NetIP.Equal ip ip = true.
Proof. unfold NetIP.Equal. rewrite Nat.eqb_refl. apply bytesEqual_refl. Qed.

(** ** MarkDeleted *)

Lemma MarkDeleted_loop_found (h : gmap ptr Endpoint) (p : ptr) (d : Endpoint) (l : list ptr) :
  h !! p = Some d → allocated h l →
  ∀ i a ep, firstLiveMatch h d l i a ep →
            MarkDeleted_loop h p l = Some (Some (<[a := set_Deleted (Deleted d) ep]> h)).
Proof.
  intros Hp. induction l as [| b l IH]; intros Hal i a ep (Hi & Ha & Hlive & Heq & Hbefore).
  - destruct i; discriminate Hi.
  - apply allocated_cons in Hal. destruct Hal as [[e He] Hal]. simpl. rewrite He. simpl.
    destruct i as [| i]; simpl in Hi.
    + inversion Hi; subst b. rewrite Ha in He. inversion He; subst e.
      rewrite Hlive, Hp. simpl. rewrite Heq. reflexivity.
    + assert (Hskip : isDeleted e = true ∨ EqualsByID e d = false).
      { apply (Hbefore 0%nat b e); [lia | reflexivity | exact He]. }
      assert (Hrest : MarkDeleted_loop h p l
                      = Some (Some (<[a := set_Deleted (Deleted d) ep]> h))).
      { apply (IH Hal i a ep). repeat split; auto.
        intros j c e' Hj Hc He'. apply (Hbefore (S j) c e'); [lia | exact Hc | exact He']. }
      destruct (isDeleted e) eqn:Hd; [exact Hrest |].
      rewrite Hp. simpl. destruct Hskip as [Hskip | Hskip]; [discriminate |].
      rewrite Hskip. exact Hrest.
Qed.

Lemma MarkDeleted_loop_none (h : gmap ptr Endpoint) (p : ptr) (d : Endpoint) (l : list ptr) :
  h !! p = Some d → allocated h l → noLiveMatch h d l →
  MarkDeleted_loop h p l = Some None.
Proof.
  intros Hp. induction l as [| b l IH]; intros Hal Hnone; [reflexivity |].
  apply allocated_cons in Hal. destruct Hal as [[e He] Hal]. simpl. rewrite He. simpl.
  assert (Hrest : MarkDeleted_loop h p l = Some None).
  { apply IH; [exact Hal |]. intros a e' Ha. apply Hnone. right. exact Ha. }
  destruct (Hnone b e) as [Hd | Hne]; [left | exact He | |].
  - rewrite Hd. exact Hrest.
  - destruct (isDeleted e); [exact Hrest |]. rewrite Hp. simpl. rewrite Hne. exact Hrest.
Qed.

Lemma set_Deleted_same (e : Endpoint) : set_Deleted (Deleted e) e = e.
Proof. destruct e; reflexivity. Qed.

(** X4: on a table whose pointers are allocated, [MarkDeleted] with the
    endpoint [d] at [del] copies the deleted-at of [d] into the first
    live entry that equals [d] by id and changes nothing else: every
    other field of that entry, every other endpoint and the list of
    entries stay as they were.  When no live entry equals [d], the
    pointer [del] is appended and no endpoint is changed. *)
Theorem MarkDeleted_marks_or_appends (es : Endpoints) (del : ptr) (d : Endpoint) :
  allocated (store es) (eps es) →
  store es !! del = Some d →
  (∀ i a ep, firstLiveMatch (store es) d (eps es) i a ep →
             MarkDeleted es del
             = Some (mkEndpoints (<[a := set_Deleted (Deleted d) ep]> (store es)) (eps es)))
  ∧ (noLiveMatch (store es) d (eps es) →
     MarkDeleted es del = Some (mkEndpoints (store es) (eps es ++ [del]))).
Proof.
  intros Hal Hp. split.
  - intros i a ep Hfirst. unfold MarkDeleted.
    rewrite (MarkDeleted_loop_found _ _ _ _ Hp Hal i a ep Hfirst). reflexivity.
  - intros Hnone. unfold MarkDeleted.
    rewrite (MarkDeleted_loop_none _ _ _ _ Hp Hal Hnone). reflexivity.
Qed.

Lemma MarkDeleted_marks_or_appends_witness :
  allocated (store live_table) (eps live_table)
  ∧ store live_table !! 2%nat = Some update_with_pod
  ∧ MarkDeleted live_table 2%nat
    = Some (mkEndpoints (<[1%nat := set_Deleted (Deleted update_with_pod) tracked_without_pod]>
                           (store live_table)) (eps live_table)).
Proof.
  split; [exact live_table_allocated |]. split; [reflexivity |].
  apply (proj1 (MarkDeleted_marks_or_appends live_table 2%nat update_with_pod
                  live_table_allocated eq_refl)
           0%nat 1%nat tracked_without_pod live_table_first_match).
Defined.

(** X5: [MarkDeleted] with an endpoint that carries no deleted-at does
    not delete anything: when a live entry equals it by id, the table is
    exactly as before the call. *)
Theorem MarkDeleted_without_timestamp (es : Endpoints) (del : ptr) (d : Endpoint) :
  allocated (store es) (eps es) →
  store es !! del = Some d →
  Deleted d = None →
  (∃ i a ep, firstLiveMatch (store es) d (eps es) i a ep) →
  MarkDeleted es del = Some es.
Proof.
  intros Hal Hp Hd (i & a & ep & Hfirst). unfold MarkDeleted.
  rewrite (MarkDeleted_loop_found _ _ _ _ Hp Hal i a ep Hfirst). simpl.
  destruct Hfirst as (_ & Ha & Hlive & _).
  assert (Hep : set_Deleted (Deleted d) ep = ep).
  { rewrite Hd. unfold isDeleted in Hlive. destruct ep as [c dl ? ? ? ? ? ? ?]; simpl in *.
    destruct dl; [discriminate | reflexivity]. }
  rewrite Hep, (insert_id _ _ _ Ha). destruct es; reflexivity.
Qed.

Lemma MarkDeleted_without_timestamp_witness :
  allocated (store live_table) (eps live_table)
  ∧ store live_table !! 2%nat = Some update_with_pod
  ∧ Deleted update_with_pod = None
  ∧ MarkDeleted live_table 2%nat = Some live_table.
Proof.
  split; [exact live_table_allocated |]. split; [reflexivity |]. split; [reflexivity |].
  apply (MarkDeleted_without_timestamp live_table 2%nat update_with_pod
           live_table_allocated eq_refl eq_refl).
  exists 0%nat, 1%nat, tracked_without_pod. exact live_table_first_match.
Defined.

(** ** What no mutator does *)

Lemma updateEndpoint_loop_inv (h : gmap ptr Endpoint) (p : ptr) (l : list ptr) :
  ∀ h', updateEndpoint_loop h p l = Some (Some h') →
  ∃ a ep o, a ∈ l ∧ h !! a = Some ep ∧ h !! p = Some o
            ∧ isDeleted ep = false ∧ EqualsByID ep o = true
            ∧ h' = <[a := SetFrom ep o]> h.
Proof.
  induction l as [| b l IH]; intros h' Hrun; simpl in Hrun; [discriminate |].
  destruct (h !! b) as [e |] eqn:He; simpl in Hrun; [| discriminate].
  assert (Hrest : updateEndpoint_loop h p l = Some (Some h') →
                  ∃ a ep o, a ∈ b :: l ∧ h !! a = Some ep ∧ h !! p = Some o
                            ∧ isDeleted ep = false ∧ EqualsByID ep o = true
                            ∧ h' = <[a := SetFrom ep o]> h).
  { intros H. destruct (IH h' H) as (a & ep & o & Hin & Hrest).
    exists a, ep, o. split; [right; exact Hin | exact Hrest]. }
  destruct (isDeleted e) eqn:Hd; [auto |].
  destruct (h !! p) as [o |] eqn:Hp; simpl in Hrun; [| discriminate].
  destruct (EqualsByID e o) eqn:Heq; [| auto].
  inversion Hrun; subst h'. exists b, e, o. split; [left | auto].
Qed.

Lemma MarkDeleted_loop_inv (h : gmap ptr Endpoint) (p : ptr) (l : list ptr) :
  ∀ h', MarkDeleted_loop h p l = Some (Some h') →
  ∃ a ep d, a ∈ l ∧ h !! a = Some ep ∧ h !! p = Some d
            ∧ isDeleted ep = false ∧ EqualsByID ep d = true
            ∧ h' = <[a := set_Deleted (Deleted d) ep]> h.
Proof.
  induction l as [| b l IH]; intros h' Hrun; simpl in Hrun; [discriminate |].
  destruct (h !! b) as [e |] eqn:He; simpl in Hrun; [| discriminate].
  assert (Hrest : MarkDeleted_loop h p l = Some (Some h') →
                  ∃ a ep d, a ∈ b :: l ∧ h !! a = Some ep ∧ h !! p = Some d
                            ∧ isDeleted ep = false ∧ EqualsByID ep d = true
                            ∧ h' = <[a := set_Deleted (Deleted d) ep]> h).
  { intros H. destruct (IH h' H) as (a & ep & d & Hin & Hrest).
    exists a, ep, d. split; [right; exact Hin | exact Hrest]. }
  destruct (isDeleted e) eqn:Hd; [auto |].
  destruct (h !! p) as [d |] eqn:Hp; simpl in Hrun; [| discriminate].
  destruct (EqualsByID e d) eqn:Heq; [| auto].
  inversion Hrun; subst h'. exists b, e, d. split; [left | auto].
Qed.

(** Every endpoint is, after the first loop of [SyncEndpoints], as it
    was or, if it was live, stamped with a reading of the clock. *)
Lemma sync_mark_inv (now : nat → Time) (newEps : list ptr) (l : list ptr) :
  ∀ k h h', sync_mark now k h newEps l = Some h' →
  ∀ a ep, h !! a = Some ep →
          h' !! a = Some ep
          ∨ (isDeleted ep = false ∧ ∃ j, h' !! a = Some (set_Deleted (Some (now j)) ep)).
Proof.
  induction l as [| b l IH]; intros k h h' Hrun a ep Ha; simpl in Hrun.
  - inversion Hrun; subst h'. left. exact Ha.
  - destruct (h !! b) as [e |] eqn:He; simpl in Hrun; [| discriminate].
    destruct (isDeleted e) eqn:Hd; [apply (IH k h h' Hrun a ep Ha) |].
    destruct (sync_found h b newEps) as [[|] |]; simpl in Hrun; [| | discriminate].
    + apply (IH k h h' Hrun a ep Ha).
    + destruct (decide (a = b)) as [-> | Hne].
      * rewrite He in Ha. inversion Ha; subst ep. right. split; [exact Hd |]. exists k.
        destruct (IH (S k) _ h' Hrun b (set_Deleted (Some (now k)) e))
          as [Hsame | [Hlive _]]; [apply lookup_insert_eq | exact Hsame | discriminate Hlive].
      * apply (IH (S k) _ h' Hrun a ep). rewrite lookup_insert_ne by congruence. exact Ha.
Qed.

Lemma updateEndpoint_eps (es es' : Endpoints) (p : ptr) :
  updateEndpoint es p = Some es' →
  eps es' = eps es ∨ eps es' = eps es ++ [p].
Proof.
  unfold updateEndpoint. intros H.
  destruct (updateEndpoint_loop (store es) p (eps es)) as [[h |] |]; simpl in H;
    inversion H; subst es'; simpl; auto.
Qed.

Lemma sync_update_eps (newEps : list ptr) :
  ∀ es es', sync_update es newEps = Some es' →
            eps es `prefix_of` eps es'
            ∧ (length (eps es') ≤ length (eps es) + length newEps)%nat.
Proof.
  induction newEps as [| u rest IH]; intros es es' H; simpl in H.
  - inversion H; subst es'. split; [reflexivity | lia].
  - destruct (updateEndpoint es u) as [es1 |] eqn:H1; simpl in H; [| discriminate].
    destruct (IH es1 es' H) as [Hpre Hlen].
    destruct (updateEndpoint_eps es es1 u H1) as [Heq | Heq]; rewrite Heq in *.
    + split; [exact Hpre | simpl; lia].
    + split.
      * etransitivity; [| exact Hpre]. apply prefix_app_r. reflexivity.
      * rewrite length_app in Hlen. simpl in *. lia.
Qed.

(** X6: no mutator removes or reorders entries.  After [UpdateEndpoint]
    or [MarkDeleted] the list of entries is the old one, or the old one
    with the given pointer appended; after [SyncEndpoints] the old list
    is a prefix of the new one, which is longer by at most the length of
    [newEps]. *)
Theorem mutators_only_append :
  (∀ es es' p, UpdateEndpoint es p = Some es' →
               eps es' = eps es ∨ eps es' = eps es ++ [p])
  ∧ (∀ es es' p, MarkDeleted es p = Some es' →
                 eps es' = eps es ∨ eps es' = eps es ++ [p])
  ∧ (∀ now es es' newEps, SyncEndpoints now es newEps = Some es' →
                          eps es `prefix_of` eps es'
                          ∧ (length (eps es') ≤ length (eps es) + length newEps)%nat).
Proof.
  split; [| split].
  - intros es es' p. apply updateEndpoint_eps.
  - intros es es' p. unfold MarkDeleted. intros H.
    destruct (MarkDeleted_loop (store es) p (eps es)) as [[h |] |]; simpl in H;
      inversion H; subst es'; simpl; auto.
  - intros now es es' newEps. unfold SyncEndpoints. destruct newEps as [| u rest].
    + intros H. inversion H; subst es'. split; [reflexivity | lia].
    + intros H.
      destruct (sync_mark now 0 (store es) (u :: rest) (eps es)) as [h |]; simpl in H;
        [| discriminate].
      apply (sync_update_eps (u :: rest) (mkEndpoints h (eps es)) es' H).
Qed.

Lemma mutators_only_append_witness :
  SyncEndpoints sync_clock sync_table [2%nat]
  = Some (mkEndpoints
            {[ 1%nat := SetFrom tracked_without_pod update_with_pod;
               2%nat := update_with_pod;
               3%nat := set_Deleted (Some 1000) other_endpoint ]}
            [1%nat; 3%nat])
  ∧ eps sync_table `prefix_of` [1%nat; 3%nat].
Proof.
  assert (Hrun : SyncEndpoints sync_clock sync_table [2%nat]
                 = Some (mkEndpoints
                           {[ 1%nat := SetFrom tracked_without_pod update_with_pod;
                              2%nat := update_with_pod;
                              3%nat := set_Deleted (Some 1000) other_endpoint ]}
                           [1%nat; 3%nat])) by (vm_compute; reflexivity).
  split; [exact Hrun |].
  apply (proj1 (proj2 (proj2 mutators_only_append) sync_clock sync_table _ [2%nat] Hrun)).
Defined.

Lemma sync_update_time (newEps : list ptr) :
  ∀ es es', sync_update es newEps = Some es' →
  ∀ a ep, store es !! a = Some ep →
          ∃ ep', store es' !! a = Some ep'
                 ∧ Created ep' = Created ep ∧ Deleted ep' = Deleted ep.
Proof.
  induction newEps as [| u rest IH]; intros es es' H a ep Ha; simpl in H.
  - inversion H; subst es'. eauto.
  - destruct (updateEndpoint es u) as [es1 |] eqn:H1; simpl in H; [| discriminate].
    assert (H1' : ∃ ep1, store es1 !! a = Some ep1
                         ∧ Created ep1 = Created ep ∧ Deleted ep1 = Deleted ep).
    { unfold updateEndpoint in H1.
      destruct (updateEndpoint_loop (store es) u (eps es)) as [[h |] |] eqn:Hloop;
        simpl in H1; inversion H1; subst es1; simpl.
      - apply (updateEndpoint_loop_time _ _ _ h Hloop a ep Ha).
      - eauto. }
    destruct H1' as (ep1 & Ha1 & Hc1 & Hd1).
    destruct (IH es1 es' H a ep1 Ha1) as (ep' & Ha' & Hc' & Hd').
    exists ep'. split; [exact Ha' |]. split; congruence.
Qed.

(** X7: a tombstone stays a tombstone.  Whatever [UpdateEndpoint],
    [MarkDeleted] or [SyncEndpoints] is called with, an endpoint that
    carries a deleted-at before the call carries the same deleted-at
    after it: no mutator revives an entry or restamps it. *)
Theorem tombstones_are_permanent (a : ptr) (ep : Endpoint) (t : Time) :
  Deleted ep = Some t →
  (∀ es es' p, UpdateEndpoint es p = Some es' → store es !! a = Some ep →
               ∃ ep', store es' !! a = Some ep' ∧ Deleted ep' = Some t)
  ∧ (∀ es es' p, MarkDeleted es p = Some es' → store es !! a = Some ep →
                 store es' !! a = Some ep)
  ∧ (∀ now es es' newEps, SyncEndpoints now es newEps = Some es' →
                          store es !! a = Some ep →
                          ∃ ep', store es' !! a = Some ep' ∧ Deleted ep' = Some t).
Proof.
  intros Ht. split; [| split].
  - intros es es' p H Ha.
    destruct (sync_update_time [p] es es') with (a := a) (ep := ep)
      as (ep' & Ha' & _ & Hd'); [| exact Ha |].
    + simpl. unfold UpdateEndpoint in H. rewrite H. reflexivity.
    + exists ep'. split; [exact Ha' | congruence].
  - intros es es' p H Ha. unfold MarkDeleted in H.
    destruct (MarkDeleted_loop (store es) p (eps es)) as [[h |] |] eqn:Hloop;
      simpl in H; inversion H; subst es'; simpl; [| exact Ha].
    destruct (MarkDeleted_loop_inv _ _ _ h Hloop) as (b & e & d & _ & Hb & _ & Hlive & _ & ->).
    destruct (decide (a = b)) as [-> | Hne].
    + rewrite Hb in Ha. inversion Ha; subst e.
      unfold isDeleted in Hlive. rewrite Ht in Hlive. discriminate.
    + rewrite lookup_insert_ne by congruence. exact Ha.
  - intros now es es' newEps H Ha. unfold SyncEndpoints in H.
    destruct newEps as [| u rest].
    + inversion H; subst es'. exists ep. auto.
    + destruct (sync_mark now 0 (store es) (u :: rest) (eps es)) as [h |] eqn:Hmark;
        simpl in H; [| discriminate].
      assert (Hh : h !! a = Some ep).
      { destruct (sync_mark_inv _ _ _ _ _ _ Hmark a ep Ha) as [Hs | [Hlive _]]; [exact Hs |].
        unfold isDeleted in Hlive. rewrite Ht in Hlive. discriminate. }
      destruct (sync_update_time (u :: rest) (mkEndpoints h (eps es)) es' H a ep Hh)
        as (ep' & Ha' & _ & Hd').
      exists ep'. split; [exact Ha' | congruence].
Qed.

Lemma tombstones_are_permanent_witness :
  Deleted stored_endpoint = Some 20
  ∧ MarkDeleted tombstone_table 1%nat = Some (mkEndpoints (store tombstone_table) [1%nat; 1%nat])
  ∧ store (mkEndpoints (store tombstone_table) [1%nat; 1%nat]) !! 1%nat = Some stored_endpoint.
Proof.
  split; [reflexivity |].
  assert (Hrun : MarkDeleted tombstone_table 1%nat
                 = Some (mkEndpoints (store tombstone_table) [1%nat; 1%nat]))
    by reflexivity.
  split; [exact Hrun |].
  apply (proj1 (proj2 (tombstones_are_permanent 1%nat stored_endpoint 20 eq_refl))
           tombstone_table _ 1%nat Hrun).
  reflexivity.
Defined.

(** ** Updates and lookups together *)

Lemma allocated_snoc (h : gmap ptr Endpoint) (l : list ptr) (p : ptr) :
  allocated h l → is_Some (h !! p) → allocated h (l ++ [p]).
Proof.
  intros Hal Hp b Hb. apply elem_of_app in Hb. destruct Hb as [Hb | Hb]; [auto |].
  apply list_elem_of_singleton in Hb. subst b. exact Hp.
Qed.

Lemma isDeleted_false (e : Endpoint) : Deleted e = None → isDeleted e = false.
Proof. unfold isDeleted. intros ->. reflexivity. Qed.

(** The entry a live endpoint leaves behind when it is appended. *)
Lemma firstLiveMatch_snoc (h : gmap ptr Endpoint) (o : Endpoint) (l : list ptr) (p : ptr) :
  h !! p = Some o → isDeleted o = false → noLiveMatch h o l →
  firstLiveMatch h o (l ++ [p]) (length l) p o.
Proof.
  intros Hp Hlive Hnone. split; [apply list_lookup_middle; reflexivity |].
  split; [exact Hp |]. split; [exact Hlive |]. split; [apply EqualsByID_refl |].
  intros j b e Hj Hb He. rewrite lookup_app_l in Hb by exact Hj.
  apply (Hnone b e); [| exact He]. apply list_elem_of_lookup. eauto.
Qed.

(** The entry an update leaves behind when it found a match. *)
Lemma firstLiveMatch_updated (h : gmap ptr Endpoint) (o : Endpoint) (l : list ptr)
    (i : nat) (a : ptr) (ep : Endpoint) :
  firstLiveMatch h o l i a ep →
  firstLiveMatch (<[a := SetFrom ep o]> h) o l i a (SetFrom ep o).
Proof.
  intros (Hi & Ha & Hlive & Heq & Hbefore).
  split; [exact Hi |]. split; [apply lookup_insert_eq |]. split; [exact Hlive |].
  split; [apply EqualsByID_SetFrom_same; exact Heq |].
  intros j b e Hj Hb He. destruct (decide (b = a)) as [-> | Hne].
  - destruct (Hbefore j a ep Hj Hb Ha) as [Hd | Hm]; congruence.
  - rewrite lookup_insert_ne in He by congruence. apply (Hbefore j b e); assumption.
Qed.

(** X8: [UpdateEndpoint] is idempotent on live endpoints: after one call
    with an endpoint that carries no deleted-at, a second call with the
    same endpoint leaves the table exactly as the first call left it (no
    second entry is appended). *)
Theorem UpdateEndpoint_idempotent (es es' : Endpoints) (updateEp : ptr) (o : Endpoint) :
  allocated (store es) (eps es) →
  store es !! updateEp = Some o →
  Deleted o = None →
  UpdateEndpoint es updateEp = Some es' →
  UpdateEndpoint es' updateEp = Some es'.
Proof.
  intros Hal Hp Hd Hrun. apply isDeleted_false in Hd.
  unfold UpdateEndpoint, updateEndpoint in *.
  destruct (firstLiveMatch_or_none (store es) o (eps es) Hal)
    as [(i & a & ep & Hfirst) | Hnone].
  - rewrite (updateEndpoint_loop_found _ _ _ _ Hp Hal i a ep Hfirst) in Hrun.
    simpl in Hrun. inversion Hrun; subst es'; clear Hrun. simpl.
    destruct (decide (updateEp = a)) as [-> | Hne].
    + destruct Hfirst as (Hi & Ha & Hrest). rewrite Ha in Hp. inversion Hp; subst ep.
      rewrite SetFrom_self, (insert_id _ _ _ Ha).
      rewrite (updateEndpoint_loop_found _ _ _ _ Ha Hal i a o
                 (conj Hi (conj Ha Hrest))). simpl.
      rewrite SetFrom_self, (insert_id _ _ _ Ha). reflexivity.
    + rewrite (updateEndpoint_loop_found _ updateEp o _) with (i := i) (a := a)
                                                            (ep := SetFrom ep o).
      * simpl. rewrite SetFrom_twice, insert_insert_eq. reflexivity.
      * rewrite lookup_insert_ne by congruence. exact Hp.
      * apply allocated_insert. exact Hal.
      * apply firstLiveMatch_updated. exact Hfirst.
  - rewrite (updateEndpoint_loop_none _ _ _ _ Hp Hal Hnone) in Hrun.
    simpl in Hrun. inversion Hrun; subst es'; clear Hrun. simpl.
    rewrite (updateEndpoint_loop_found _ updateEp o _) with (i := length (eps es))
                                                          (a := updateEp) (ep := o).
    + simpl. rewrite SetFrom_self, (insert_id _ _ _ Hp). reflexivity.
    + exact Hp.
    + apply allocated_snoc; [exact Hal | eauto].
    + apply firstLiveMatch_snoc; assumption.
Qed.

Lemma UpdateEndpoint_idempotent_witness :
  allocated (store live_table) (eps live_table)
  ∧ store live_table !! 2%nat = Some update_with_pod
  ∧ Deleted update_with_pod = None
  ∧ UpdateEndpoint live_table 2%nat
    = Some (mkEndpoints (<[1%nat := SetFrom tracked_without_pod update_with_pod]>
                           (store live_table)) [1%nat])
  ∧ UpdateEndpoint (mkEndpoints (<[1%nat := SetFrom tracked_without_pod update_with_pod]>
                                   (store live_table)) [1%nat]) 2%nat
    = Some (mkEndpoints (<[1%nat := SetFrom tracked_without_pod update_with_pod]>
                           (store live_table)) [1%nat]).
Proof.
  split; [exact live_table_allocated |]. split; [reflexivity |]. split; [reflexivity |].
  split; [reflexivity |].
  apply (UpdateEndpoint_idempotent live_table _ 2%nat update_with_pod
           live_table_allocated eq_refl eq_refl eq_refl).
Defined.

(** The entry an update leaves in the table for the endpoint it was
    given. *)
Lemma updateEndpoint_leaves_entry (es es' : Endpoints) (p : ptr) (o : Endpoint) :
  allocated (store es) (eps es) → store es !! p = Some o →
  updateEndpoint es p = Some es' →
  allocated (store es') (eps es')
  ∧ ∃ a e, a ∈ eps es' ∧ store es' !! a = Some e
           ∧ ID e = ID o ∧ PodName e = PodName o ∧ PodNamespace e = PodNamespace o
           ∧ (∀ x, IPv4 o = Some x → IPv4 e = Some x)
           ∧ (∀ x, IPv6 o = Some x → IPv6 e = Some x).
Proof.
  intros Hal Hp Hrun. unfold updateEndpoint in Hrun.
  destruct (firstLiveMatch_or_none (store es) o (eps es) Hal)
    as [(i & a & ep & Hfirst) | Hnone].
  - rewrite (updateEndpoint_loop_found _ _ _ _ Hp Hal i a ep Hfirst) in Hrun.
    simpl in Hrun. inversion Hrun; subst es'; clear Hrun. simpl.
    destruct Hfirst as (Hi & Ha & Hlive & Heq & _).
    split; [apply allocated_insert; exact Hal |].
    exists a, (SetFrom ep o).
    destruct (SetFrom_key ep o Heq) as (Hid & Hpod & Hns).
    split; [apply list_elem_of_lookup; eauto |].
    split; [apply lookup_insert_eq |].
    split; [exact Hid |]. split; [exact Hpod |]. split; [exact Hns |].
    split; intros x Hx; unfold SetFrom; simpl; rewrite Hx; reflexivity.
  - rewrite (updateEndpoint_loop_none _ _ _ _ Hp Hal Hnone) in Hrun.
    simpl in Hrun. inversion Hrun; subst es'; clear Hrun. simpl.
    split; [apply allocated_snoc; [exact Hal | eauto] |].
    exists p, o. split; [apply elem_of_app; right; left |].
    split; [exact Hp |]. repeat split; auto.
Qed.

Lemma entries_lookup (h : gmap ptr Endpoint) (l : list ptr) (all : list Endpoint)
    (a : ptr) (e : Endpoint) :
  mapM (λ b, h !! b) l = Some all → a ∈ l → h !! a = Some e → e ∈ all.
Proof.
  intros Hall Ha He. apply mapM_Some_1 in Hall.
  apply list_elem_of_lookup in Ha. destruct Ha as [i Hi].
  destruct (Forall2_lookup_l _ _ _ i a Hall Hi) as (e' & Hi' & He').
  simpl in He'. rewrite He in He'. inversion He'; subst e'.
  apply list_elem_of_lookup. eauto.
Qed.

(** X9: an endpoint that was just upserted can be looked up.  After
    [UpdateEndpoint] with the endpoint [o], [GetEndpoint] with the IPv4
    (or IPv6) address of [o] returns an endpoint with that address, and
    [FindEPs] with the id of [o], when it is not 0, returns a list that
    holds an endpoint with the id, pod name and namespace of [o]. *)
Theorem UpdateEndpoint_then_lookup (es es' : Endpoints) (updateEp : ptr) (o : Endpoint) :
  allocated (store es) (eps es) →
  store es !! updateEp = Some o →
  UpdateEndpoint es updateEp = Some es' →
  (∀ x, IPv4 o = Some x ∨ IPv6 o = Some x →
        ∃ b e, GetEndpoint es' (Some x) = Some (Some b)
               ∧ store es' !! b = Some e ∧ ipMatch (Some x) e = true)
  ∧ (ID o ≠ 0 →
     ∀ namespace podName,
       ∃ found e, FindEPs es' (ID o) namespace podName = Some found
                  ∧ e ∈ found ∧ ID e = ID o
                  ∧ PodName e = PodName o ∧ PodNamespace e = PodNamespace o).
Proof.
  intros Hal Hp Hrun.
  destruct (updateEndpoint_leaves_entry es es' updateEp o Hal Hp Hrun)
    as (Hal' & a & e & Hin & Ha & Hid & Hpod & Hns & H4 & H6).
  split.
  - intros x Hx.
    assert (Hm : ipMatch (Some x) e = true).
    { unfold ipMatch. destruct Hx as [Hx | Hx].
      - rewrite (H4 x Hx), NetIP_Equal_refl. reflexivity.
      - rewrite (H6 x Hx), NetIP_Equal_refl. apply orb_true_r. }
    destruct (GetEndpoint_loop_first (store es') (Some x) (eps es') Hal')
      as [(b & i & e' & Hget & _ & Hb & Hm' & _) | [_ Hnone]].
    + exists b, e'. auto.
    + rewrite (Hnone a e Hin Ha) in Hm. discriminate.
  - intros Hnz namespace podName.
    destruct (mapM_allocated _ _ Hal') as [all Hall].
    exists (List.filter (findMatch (ID o) namespace podName) all), e.
    split; [unfold FindEPs; rewrite FindEPs_loop_filter, Hall; reflexivity |].
    split; [| auto].
    apply list_elem_of_In, List.filter_In. split.
    + apply list_elem_of_In. apply (entries_lookup _ _ _ a e Hall Hin Ha).
    + unfold findMatch. apply Z.eqb_neq in Hnz. rewrite Hnz, Hid, Z.eqb_refl. reflexivity.
Qed.

Lemma UpdateEndpoint_then_lookup_witness :
  allocated (store empty_table) (eps empty_table)
  ∧ store empty_table !! 1%nat = Some stored_endpoint
  ∧ UpdateEndpoint empty_table 1%nat = Some tombstone_table
  ∧ ∃ b e, GetEndpoint tombstone_table (Some [x0a; x00; x00; x01]) = Some (Some b)
           ∧ store tombstone_table !! b = Some e
           ∧ ipMatch (Some [x0a; x00; x00; x01]) e = true.
Proof.
  assert (Hal : allocated (store empty_table) (eps empty_table)).
  { intros a Ha. inversion Ha. }
  split; [exact Hal |]. split; [reflexivity |]. split; [reflexivity |].
  apply (proj1 (UpdateEndpoint_then_lookup empty_table tombstone_table 1%nat stored_endpoint
                  Hal eq_refl eq_refl)).
  left. reflexivity.
Defined.

(** X10: a lookup by a nil address does not fail: [GetEndpoint] with the
    nil IP returns the first entry that has no IPv4 or no IPv6 address,
    whenever the table holds one. *)
Theorem GetEndpoint_nil_finds_missing_address (es : Endpoints) (a : ptr) (e : Endpoint) :
  allocated (store es) (eps es) →
  a ∈ eps es → store es !! a = Some e →
  IPv4 e = None ∨ IPv6 e = None →
  ∃ b i e', GetEndpoint es None = Some (Some b)
            ∧ eps es !! i = Some b ∧ store es !! b = Some e'
            ∧ (NetIP.bytes (IPv4 e') = [] ∨ NetIP.bytes (IPv6 e') = [])
            ∧ ∀ j c e0, (j < i)%nat → eps es !! j = Some c → store es !! c = Some e0 →
                        NetIP.bytes (IPv4 e0) ≠ [] ∧ NetIP.bytes (IPv6 e0) ≠ [].
Proof.
  intros Hal Hin Ha Hmissing.
  assert (Hnil : ∀ ip, NetIP.Equal ip None = true ↔ NetIP.bytes ip = []).
  { intros ip. unfold NetIP.Equal. simpl.
    destruct (NetIP.bytes ip) as [| x l]; simpl; [tauto |]. split; [| discriminate].
    rewrite !andb_false_r. discriminate. }
  assert (Hm : ∀ e0, ipMatch None e0 = true
                     ↔ NetIP.bytes (IPv4 e0) = [] ∨ NetIP.bytes (IPv6 e0) = []).
  { intros e0. unfold ipMatch. rewrite orb_true_iff, !Hnil. tauto. }
  destruct (GetEndpoint_loop_first (store es) None (eps es) Hal)
    as [(b & i & e' & Hget & Hi & Hb & Hm' & Hbefore) | [_ Hnone]].
  - exists b, i, e'. split; [exact Hget |]. split; [exact Hi |]. split; [exact Hb |].
    split; [apply Hm; exact Hm' |].
    intros j c e0 Hj Hc He0. specialize (Hbefore j c e0 Hj Hc He0).
    split; intros Hcontra; assert (ipMatch None e0 = true) by (apply Hm; auto); congruence.
  - assert (ipMatch None e = true).
    { apply Hm. destruct Hmissing as [-> | ->]; [left | right]; reflexivity. }
    rewrite (Hnone a e Hin Ha) in H. discriminate.
Qed.

Lemma GetEndpoint_nil_finds_missing_address_witness :
  allocated (store live_table) (eps live_table)
  ∧ 1%nat ∈ eps live_table
  ∧ store live_table !! 1%nat = Some tracked_without_pod
  ∧ IPv4 tracked_without_pod = None
  ∧ ∃ b, GetEndpoint live_table None = Some (Some b).
Proof.
  assert (Hin : 1%nat ∈ eps live_table) by left.
  split; [exact live_table_allocated |]. split; [exact Hin |].
  split; [reflexivity |]. split; [reflexivity |].
  destruct (GetEndpoint_nil_finds_missing_address live_table 1%nat tracked_without_pod
              live_table_allocated Hin eq_refl (or_introl eq_refl))
    as (b & _ & _ & Hget & _).
  exists b. exact Hget.
Defined.

Lemma updateEndpoint_loop_nil_dead (h : gmap ptr Endpoint) (p : ptr) (l : list ptr) :
  allocated h l →
  (∀ a e, a ∈ l → h !! a = Some e → isDeleted e = true) →
  updateEndpoint_loop h p l = Some None.
Proof.
  induction l as [| b l IH]; intros Hal Hdead; [reflexivity |].
  apply allocated_cons in Hal. destruct Hal as [[e He] Hal]. simpl. rewrite He. simpl.
  rewrite (Hdead b e); [| left | exact He].
  apply IH; [exact Hal |]. intros a e' Ha. apply Hdead. right. exact Ha.
Qed.

Lemma updateEndpoint_loop_nil_live (h : gmap ptr Endpoint) (p : ptr) (l : list ptr) :
  h !! p = None → allocated h l →
  (∃ a e, a ∈ l ∧ h !! a = Some e ∧ isDeleted e = false) →
  updateEndpoint_loop h p l = None.
Proof.
  intros Hp. induction l as [| b l IH]; intros Hal (a & e & Hin & Ha & Hlive).
  - inversion Hin.
  - apply allocated_cons in Hal. destruct Hal as [[e' He'] Hal]. simpl. rewrite He'. simpl.
    destruct (isDeleted e') eqn:Hd; [| rewrite Hp; reflexivity].
    apply IH; [exact Hal |]. exists a, e. split; [| auto].
    apply elem_of_cons in Hin. destruct Hin as [-> | Hin]; [| exact Hin].
    rewrite Ha in He'. inversion He'; subst e'. congruence.
Qed.

(** X11: a nil pointer is not refused.  On a table without live entries
    [UpdateEndpoint] with a pointer that is not allocated appends the
    pointer without reading it, and from then on every call of [FindEPs]
    panics; on a table that has a live entry the call itself panics. *)
Theorem UpdateEndpoint_nil_pointer (es : Endpoints) (updateEp : ptr) :
  allocated (store es) (eps es) →
  store es !! updateEp = None →
  ((∀ a e, a ∈ eps es → store es !! a = Some e → isDeleted e = true) →
   UpdateEndpoint es updateEp = Some (mkEndpoints (store es) (eps es ++ [updateEp]))
   ∧ ∀ epID namespace podName,
       FindEPs (mkEndpoints (store es) (eps es ++ [updateEp])) epID namespace podName = None)
  ∧ ((∃ a e, a ∈ eps es ∧ store es !! a = Some e ∧ isDeleted e = false) →
     UpdateEndpoint es updateEp = None).
Proof.
  intros Hal Hp. unfold UpdateEndpoint, updateEndpoint. split.
  - intros Hdead. rewrite (updateEndpoint_loop_nil_dead _ _ _ Hal Hdead). simpl.
    split; [reflexivity |]. intros epID namespace podName.
    unfold FindEPs. rewrite FindEPs_loop_filter. simpl.
    destruct (mapM (λ a, store es !! a) (eps es ++ [updateEp])) as [all |] eqn:Hall;
      [| reflexivity].
    exfalso. assert (Hsome : is_Some (mapM (λ a, store es !! a) (eps es ++ [updateEp])))
      by eauto.
    apply mapM_is_Some_1 in Hsome. rewrite Forall_app, Forall_singleton in Hsome.
    destruct Hsome as [_ Hlast]. simpl in Hlast. rewrite Hp in Hlast.
    apply is_Some_None in Hlast. exact Hlast.
  - intros Hlive. rewrite (updateEndpoint_loop_nil_live _ _ _ Hp Hal Hlive). reflexivity.
Qed.

Lemma UpdateEndpoint_nil_pointer_witness :
  allocated (store empty_table) (eps empty_table)
  ∧ store empty_table !! 0%nat = None
  ∧ UpdateEndpoint empty_table 0%nat
    = Some (mkEndpoints (store empty_table) (eps empty_table ++ [0%nat]))
  ∧ FindEPs (mkEndpoints (store empty_table) (eps empty_table ++ [0%nat])) 7 "" "" = None.
Proof.
  assert (Hal : allocated (store empty_table) (eps empty_table)).
  { intros a Ha. inversion Ha. }
  split; [exact Hal |]. split; [reflexivity |].
  destruct (proj1 (UpdateEndpoint_nil_pointer empty_table 0%nat Hal eq_refl))
    as [Hrun Hfind].
  - intros a e Ha. inversion Ha.
  - split; [exact Hrun | apply Hfind].
Defined.

(** ** The invariant of the table *)

Lemma stampedFrom_refl (h : gmap ptr Endpoint) : stampedFrom h h.
Proof.
  intros x e' Hx. exists e', (Deleted e').
  split; [exact Hx |]. split; [symmetry; apply set_Deleted_same | auto].
Qed.

Lemma stampedFrom_trans (h1 h2 h3 : gmap ptr Endpoint) :
  stampedFrom h1 h2 → stampedFrom h2 h3 → stampedFrom h1 h3.
Proof.
  intros H12 H23 x e3 Hx.
  destruct (H23 x e3 Hx) as (e2 & d3 & Hx2 & -> & Hlive3).
  destruct (H12 x e2 Hx2) as (e1 & d2 & Hx1 & -> & Hlive2).
  exists e1, d3. split; [exact Hx1 |]. split; [reflexivity | auto].
Qed.

Lemma stampedFrom_insert (h : gmap ptr Endpoint) (a : ptr) (e : Endpoint) d :
  h !! a = Some e → isDeleted e = false →
  stampedFrom h (<[a := set_Deleted d e]> h).
Proof.
  intros Ha Hlive x e' Hx. destruct (decide (x = a)) as [-> | Hne].
  - rewrite lookup_insert_eq in Hx. inversion Hx; subst e'.
    exists e, d. auto.
  - rewrite lookup_insert_ne in Hx by congruence.
    exists e', (Deleted e'). split; [exact Hx |].
    split; [symmetry; apply set_Deleted_same | auto].
Qed.

Lemma liveDistinct_stampedFrom (h h' : gmap ptr Endpoint) (l : list ptr) :
  stampedFrom h h' → liveDistinct h l → liveDistinct h' l.
Proof.
  intros Hst Hinv i j a b ea eb Hlt Hi Hj Ha Hb La Lb.
  destruct (Hst a ea Ha) as (ea0 & da & Ha0 & -> & Hla).
  destruct (Hst b eb Hb) as (eb0 & db & Hb0 & -> & Hlb).
  apply (Hinv i j a b ea0 eb0 Hlt Hi Hj Ha0 Hb0 (Hla La) (Hlb Lb)).
Qed.

Lemma sync_mark_stampedFrom (now : nat → Time) (newEps : list ptr) (l : list ptr) :
  ∀ k h h', sync_mark now k h newEps l = Some h' → stampedFrom h h'.
Proof.
  induction l as [| b l IH]; intros k h h' Hrun; simpl in Hrun.
  - inversion Hrun; subst h'. apply stampedFrom_refl.
  - destruct (h !! b) as [e |] eqn:He; simpl in Hrun; [| discriminate].
    destruct (isDeleted e) eqn:Hd; [apply (IH k h h' Hrun) |].
    destruct (sync_found h b newEps) as [[|] |]; simpl in Hrun; [| | discriminate].
    + apply (IH k h h' Hrun).
    + eapply stampedFrom_trans; [| apply (IH (S k) _ h' Hrun)].
      apply stampedFrom_insert; assumption.
Qed.

Lemma liveDistinct_snoc (h : gmap ptr Endpoint) (l : list ptr) (p : ptr) (o : Endpoint) :
  liveDistinct h l → h !! p = Some o → noLiveMatch h o l →
  liveDistinct h (l ++ [p]).
Proof.
  intros Hinv Hp Hnone i j x y ex ey Hlt Hx Hy Hex Hey Lx Ly.
  apply lookup_snoc_Some in Hy. destruct Hy as [[Hj Hy] | [Hj Hy]].
  - rewrite lookup_app_l in Hx by lia.
    apply (Hinv i j x y ex ey); assumption.
  - subst j y. rewrite lookup_app_l in Hx by lia.
    rewrite Hp in Hey. inversion Hey; subst ey.
    destruct (Hnone x ex) as [Hd | Hm]; [| exact Hex | congruence | exact Hm].
    apply list_elem_of_lookup. eauto.
Qed.

Lemma liveDistinct_updated (h : gmap ptr Endpoint) (l : list ptr) (o : Endpoint)
    (i : nat) (a : ptr) (ep : Endpoint) :
  liveDistinct h l → firstLiveMatch h o l i a ep →
  liveDistinct (<[a := SetFrom ep o]> h) l.
Proof.
  intros Hinv (Hi & Ha & Hlive & Heq & Hbefore) i' j' x y ex ey Hlt Hx Hy Hex Hey Lx Ly.
  assert (Htwice : ∀ n m, (n < m)%nat → l !! n = Some a → l !! m = Some a → False).
  { intros n m Hnm Hn Hm.
    pose proof (Hinv n m a a ep ep Hnm Hn Hm Ha Ha Hlive Hlive) as Hcontra.
    rewrite EqualsByID_refl in Hcontra. discriminate. }
  destruct (decide (x = a)) as [-> | Nx]; destruct (decide (y = a)) as [-> | Ny].
  - exfalso. apply (Htwice i' j'); assumption.
  - rewrite lookup_insert_eq in Hex. inversion Hex; subst ex.
    rewrite lookup_insert_ne in Hey by congruence.
    destruct (EqualsByID (SetFrom ep o) ey) eqn:E; [| reflexivity].
    apply (EqualsByID_SetFrom_l ep o ey Heq) in E.
    rewrite (Hinv i' j' a y ep ey Hlt Hx Hy Ha Hey Hlive Ly) in E. discriminate.
  - rewrite lookup_insert_ne in Hex by congruence.
    rewrite lookup_insert_eq in Hey. inversion Hey; subst ey.
    rewrite (EqualsByID_SetFrom_r ex ep o Heq).
    destruct (lt_eq_lt_dec j' i) as [[Hji | Hji] | Hji].
    + destruct (Hbefore j' a ep Hji Hy Ha); congruence.
    + subst j'. destruct (Hbefore i' x ex Hlt Hx Hex) as [Hd | Hm]; [congruence | exact Hm].
    + exfalso. apply (Htwice i j'); assumption.
  - rewrite lookup_insert_ne in Hex by congruence.
    rewrite lookup_insert_ne in Hey by congruence.
    apply (Hinv i' j' x y ex ey); assumption.
Qed.

Lemma updateEndpoint_liveDistinct (es es' : Endpoints) (p : ptr) :
  allocated (store es) (eps es) → liveDistinct (store es) (eps es) →
  is_Some (store es !! p) → updateEndpoint es p = Some es' →
  liveDistinct (store es') (eps es').
Proof.
  intros Hal Hinv [o Hp] Hrun. unfold updateEndpoint in Hrun.
  destruct (firstLiveMatch_or_none (store es) o (eps es) Hal)
    as [(i & a & ep & Hfirst) | Hnone].
  - rewrite (updateEndpoint_loop_found _ _ _ _ Hp Hal i a ep Hfirst) in Hrun.
    simpl in Hrun. inversion Hrun; subst es'; simpl.
    apply (liveDistinct_updated _ _ o i a ep Hinv Hfirst).
  - rewrite (updateEndpoint_loop_none _ _ _ _ Hp Hal Hnone) in Hrun.
    simpl in Hrun. inversion Hrun; subst es'; simpl.
    apply (liveDistinct_snoc _ _ p o Hinv Hp Hnone).
Qed.

Lemma MarkDeleted_invariant (es es' : Endpoints) (p : ptr) :
  allocated (store es) (eps es) → liveDistinct (store es) (eps es) →
  is_Some (store es !! p) → MarkDeleted es p = Some es' →
  allocated (store es') (eps es') ∧ liveDistinct (store es') (eps es').
Proof.
  intros Hal Hinv [d Hp] Hrun. unfold MarkDeleted in Hrun.
  destruct (firstLiveMatch_or_none (store es) d (eps es) Hal)
    as [(i & a & ep & Hfirst) | Hnone].
  - rewrite (MarkDeleted_loop_found _ _ _ _ Hp Hal i a ep Hfirst) in Hrun.
    simpl in Hrun. inversion Hrun; subst es'; simpl.
    destruct Hfirst as (_ & Ha & Hlive & _).
    split; [apply allocated_insert; exact Hal |].
    apply (liveDistinct_stampedFrom (store es)); [| exact Hinv].
    apply stampedFrom_insert; assumption.
  - rewrite (MarkDeleted_loop_none _ _ _ _ Hp Hal Hnone) in Hrun.
    simpl in Hrun. inversion Hrun; subst es'; simpl.
    split; [apply allocated_snoc; [exact Hal | eauto] |].
    apply (liveDistinct_snoc _ _ p d Hinv Hp Hnone).
Qed.

Lemma sync_update_invariant (newEps : list ptr) :
  ∀ es es', allocated (store es) (eps es) → liveDistinct (store es) (eps es) →
            allocated (store es) newEps → sync_update es newEps = Some es' →
            allocated (store es') (eps es') ∧ liveDistinct (store es') (eps es').
Proof.
  induction newEps as [| u rest IH]; intros es es' Hal Hinv Hnew Hrun; simpl in Hrun.
  - inversion Hrun; subst es'. auto.
  - apply allocated_cons in Hnew. destruct Hnew as [Hu Hnew].
    destruct (updateEndpoint_preserves es u Hal Hu) as (es1 & Hrun1 & Hal1 & Htime1 & _).
    rewrite Hrun1 in Hrun. simpl in Hrun.
    apply (IH es1 es'); [exact Hal1 | | | exact Hrun].
    + apply (updateEndpoint_liveDistinct es es1 u); assumption.
    + intros b Hb. destruct (Hnew b Hb) as [e He].
      destruct (Htime1 b e He) as (e' & He' & _). eauto.
Qed.

Lemma SyncEndpoints_invariant (now : nat → Time) (es es' : Endpoints) (newEps : list ptr) :
  allocated (store es) (eps es) → liveDistinct (store es) (eps es) →
  allocated (store es) newEps → SyncEndpoints now es newEps = Some es' →
  allocated (store es') (eps es') ∧ liveDistinct (store es') (eps es').
Proof.
  intros Hal Hinv Hnew Hrun. unfold SyncEndpoints in Hrun.
  destruct newEps as [| u rest]; [inversion Hrun; subst es'; auto |].
  destruct (sync_mark now 0 (store es) (u :: rest) (eps es)) as [h |] eqn:Hmark;
    simpl in Hrun; [| discriminate].
  assert (Hdom : ∀ a, is_Some (store es !! a) → is_Some (h !! a)).
  { intros a [e He].
    destruct (sync_mark_inv _ _ _ _ _ _ Hmark a e He) as [Hs | (_ & j & Hs)]; eauto. }
  apply (sync_update_invariant (u :: rest) (mkEndpoints h (eps es)) es'); simpl.
  - intros a Ha. apply Hdom, Hal, Ha.
  - apply (liveDistinct_stampedFrom (store es)); [| exact Hinv].
    apply (sync_mark_stampedFrom _ _ _ _ _ _ Hmark).
  - intros a Ha. apply Hdom, Hnew, Ha.
  - exact Hrun.
Qed.

Lemma reachable_invariant (es : Endpoints) :
  reachable es → allocated (store es) (eps es) ∧ liveDistinct (store es) (eps es).
Proof.
  induction 1 as [h | es a e Hreach [Hal Hinv] Hfresh
                    | es es' p Hreach [Hal Hinv] Hp Hrun
                    | es es' p Hreach [Hal Hinv] Hp Hrun
                    | now es es' newEps Hreach [Hal Hinv] Hnew Hrun]; simpl.
  - split; [intros a Ha; inversion Ha |].
    intros i j a b ea eb _ Hi. destruct i; discriminate Hi.
  - assert (Hother : ∀ b, b ∈ eps es → b ≠ a).
    { intros b Hb ->. destruct (Hal a Hb) as [? Hsome]. congruence. }
    split.
    + apply allocated_insert. exact Hal.
    + intros i j x y ex ey Hlt Hx Hy Hex Hey.
      rewrite lookup_insert_ne in Hex
        by (intros ->; apply (Hother x); [apply list_elem_of_lookup; eauto | reflexivity]).
      rewrite lookup_insert_ne in Hey
        by (intros ->; apply (Hother y); [apply list_elem_of_lookup; eauto | reflexivity]).
      apply (Hinv i j x y ex ey); assumption.
  - unfold UpdateEndpoint in Hrun.
    destruct (updateEndpoint_preserves es p Hal Hp) as (es1 & Hrun1 & Hal1 & _).
    rewrite Hrun1 in Hrun. inversion Hrun; subst es1.
    split; [exact Hal1 |]. apply (updateEndpoint_liveDistinct es es' p); assumption.
  - apply (MarkDeleted_invariant es es' p); assumption.
  - apply (SyncEndpoints_invariant now es es' newEps); assumption.
Qed.

(** X12: a table that starts empty and is driven through
    [UpdateEndpoint], [MarkDeleted] and [SyncEndpoints] never points to
    an unallocated endpoint and never holds two live entries for the
    same endpoint: no live entry equals a later live entry by id, no two
    live entries have the same id, pod name and namespace, and no
    pointer to a live endpoint occurs twice. *)
Theorem reachable_tables_have_distinct_live_entries (es : Endpoints) :
  reachable es →
  allocated (store es) (eps es)
  ∧ liveDistinct (store es) (eps es)
  ∧ ∀ i j a b ea eb,
      i ≠ j → eps es !! i = Some a → eps es !! j = Some b →
      store es !! a = Some ea → store es !! b = Some eb →
      isDeleted ea = false → isDeleted eb = false →
      sameEndpoint_spec ea eb = false ∧ a ≠ b.
Proof.
  intros Hreach. destruct (reachable_invariant es Hreach) as [Hal Hinv].
  split; [exact Hal |]. split; [exact Hinv |].
  assert (Hlt : ∀ i j a b ea eb,
             (i < j)%nat → eps es !! i = Some a → eps es !! j = Some b →
             store es !! a = Some ea → store es !! b = Some eb →
             isDeleted ea = false → isDeleted eb = false →
             sameEndpoint_spec ea eb = false ∧ sameEndpoint_spec eb ea = false ∧ a ≠ b).
  { intros i j a b ea eb Hij Hi Hj Ha Hb La Lb.
    pose proof (Hinv i j a b ea eb Hij Hi Hj Ha Hb La Lb) as Hne.
    assert (Hkey : ¬ (ID ea = ID eb ∧ PodName ea = PodName eb
                      ∧ PodNamespace ea = PodNamespace eb)).
    { intros (Hid & Hp & Hn).
      assert (EqualsByID ea eb = true) by (apply EqualsByID_true; auto).
      congruence. }
    assert (Hspec : ∀ x y, sameEndpoint_spec x y = true →
                           ID x = ID y ∧ PodName x = PodName y
                           ∧ PodNamespace x = PodNamespace y).
    { intros x y H. unfold sameEndpoint_spec in H. bool_to_prop; repeat split; congruence. }
    split; [| split].
    - destruct (sameEndpoint_spec ea eb) eqn:E; [| reflexivity].
      exfalso. apply Hkey. apply Hspec. exact E.
    - destruct (sameEndpoint_spec eb ea) eqn:E; [| reflexivity].
      exfalso. apply Hkey. destruct (Hspec _ _ E) as (? & ? & ?). auto.
    - intros ->. rewrite Ha in Hb. inversion Hb; subst eb.
      rewrite EqualsByID_refl in Hne. discriminate. }
  intros i j a b ea eb Hij Hi Hj Ha Hb La Lb.
  destruct (lt_eq_lt_dec i j) as [[Hlt' | Heq] | Hgt]; [| contradiction |].
  - destruct (Hlt i j a b ea eb Hlt' Hi Hj Ha Hb La Lb) as (H1 & _ & H3). auto.
  - destruct (Hlt j i b a eb ea Hgt Hj Hi Hb Ha Lb La) as (_ & H2 & H3). auto.
Qed.

Lemma reachable_tables_have_distinct_live_entries_witness :
  reachable live_table ∧ liveDistinct (store live_table) (eps live_table).
Proof.
  assert (Hreach : reachable live_table).
  { apply (reach_UpdateEndpoint (mkEndpoints (store live_table) []) live_table 1%nat).
    - apply reach_empty.
    - eexists; reflexivity.
    - reflexivity. }
  split; [exact Hreach |].
  apply (proj1 (proj2 (reachable_tables_have_distinct_live_entries live_table Hreach))).
Defined.

(** ** The status command *)

Ltac status_cases env :=
  destruct env as [[dialErr |] [checkErr | []] [dialErr' |] [statusErr | res]];
  unfold Status.runStatus, Status.getHC, Status.getStatus; simpl.

(** X13: [getHC] reports healthy exactly when the dial succeeded and the
    health check answered SERVING without an error, and exactly then the
    status text is Ok; a healthy answer carries no error, and an answer
    other than SERVING is reported as unhealthy without an error. *)
Theorem getHC_healthy_iff_serving (env : Status.Env) :
  ((Status.getHC env).1.1 = true
   ↔ Status.dialHC env = None ∧ Status.healthCheck env = inr Status.SERVING)
  ∧ ((Status.getHC env).1.1 = true ↔ (Status.getHC env).1.2 = "Ok")
  ∧ ((Status.getHC env).1.1 = true → (Status.getHC env).2 = None)
  ∧ (∀ st, Status.dialHC env = None → Status.healthCheck env = inr st →
           st ≠ Status.SERVING →
           Status.getHC env
           = (false, "Unavailable: " +:+ Status.ServingStatus_String st, None)).
Proof.
  destruct env as [[dialErr |] [checkErr | []] dialStatus serverStatus];
    unfold Status.getHC; simpl;
    (split; [split; [intros H; try discriminate H; auto
                    | intros [H1 H2]; try discriminate H1; try discriminate H2; auto] |]);
    (split; [split; intros H; try discriminate H; auto |]);
    (split; [intros H; try discriminate H; auto |]);
    intros st H1 H2 Hne; try discriminate H1; try discriminate H2;
    inversion H2; subst st; try reflexivity; contradiction.
Qed.

Lemma getHC_healthy_iff_serving_witness :
  Status.getHC (Status.mkEnv None (inr Status.NOT_SERVING) None (inl "unused"))
  = (false, "Unavailable: NOT_SERVING", None).
Proof.
  apply (proj2 (proj2 (proj2 (getHC_healthy_iff_serving
           (Status.mkEnv None (inr Status.NOT_SERVING) None (inl "unused")))))
           Status.NOT_SERVING); [reflexivity | reflexivity | discriminate].
Defined.

(** X14: [runStatus] never returns an error.  It returns nil exactly
    when the server is healthy and the status call succeeded, calls
    [os.Exit(-1)] exactly when the server is not healthy, and panics
    exactly when the server is healthy but the status call could not be
    made or failed: after a failed [ServerStatus] call it prints the
    failure and then reads the nil response. *)
Theorem runStatus_outcomes (serverURL : string) (env : Status.Env) :
  ((Status.runStatus serverURL env).2 = Status.Return None
   ↔ Status.dialHC env = None ∧ Status.healthCheck env = inr Status.SERVING
     ∧ Status.dialStatus env = None ∧ ∃ res, Status.serverStatus env = inr res)
  ∧ ((Status.runStatus serverURL env).2 = Status.Exit (-1)
     ↔ ¬ (Status.dialHC env = None ∧ Status.healthCheck env = inr Status.SERVING))
  ∧ ((Status.runStatus serverURL env).2 = Status.Panic
     ↔ Status.dialHC env = None ∧ Status.healthCheck env = inr Status.SERVING
       ∧ (Status.dialStatus env ≠ None ∨ ∃ err, Status.serverStatus env = inl err))
  ∧ (∀ err, (Status.runStatus serverURL env).2 ≠ Status.Return (Some err))
  ∧ (∀ err, Status.dialHC env = None → Status.healthCheck env = inr Status.SERVING →
            Status.dialStatus env = None → Status.serverStatus env = inl err →
            Status.runStatus serverURL env
            = ([Status.Healthcheck serverURL "Ok"; Status.FailedToGetServerStatus err],
               Status.Panic)).
Proof.
  status_cases env.
  all: repeat match goal with
       | |- _ ∧ _ => split
       | |- _ ↔ _ => split
       end.
  all: try (intros H; discriminate H).
  all: try (intros; discriminate).
  all: try (intros; congruence).
  all: try (intros (H1 & H2 & H3); first [discriminate H1 | discriminate H2 | discriminate H3]).
  all: try (intros (H1 & H2 & H3 & [r H4]);
            first [discriminate H1 | discriminate H2 | discriminate H3 | discriminate H4]).
  all: try (intros _; intros [H1 H2]; first [discriminate H1 | discriminate H2]).
  all: try (intros H; exfalso; apply H; split; reflexivity).
  all: try (intros (H1 & H2 & [H3 | [e H3]]);
            first [discriminate H1 | discriminate H2 | discriminate H3 | contradiction]).
  all: try (intros _; repeat split; eauto; fail).
  all: try (intros _; split; [reflexivity |]; split; [reflexivity |];
            first [left; discriminate | right; eauto]).
Qed.

Lemma runStatus_outcomes_witness :
  Status.runStatus "unix:///var/run/hubble.sock"
    (Status.mkEnv None (inr Status.SERVING) None (inl "rpc failed"))
  = ([Status.Healthcheck "unix:///var/run/hubble.sock" "Ok";
      Status.FailedToGetServerStatus "rpc failed"],
     Status.Panic).
Proof.
  apply (proj2 (proj2 (proj2 (proj2 (runStatus_outcomes "unix:///var/run/hubble.sock"
           (Status.mkEnv None (inr Status.SERVING) None (inl "rpc failed"))))))
           "rpc failed"); reflexivity.
Defined.

(** ** Who survives a sync *)

(** X15: an endpoint survives a sync only if the new list names it.
    After [SyncEndpoints] with a list that is not empty, every entry the
    table had before the call that is live after it was live before and
    equals, by id, an element of [newEps]. *)
Theorem SyncEndpoints_survivors_are_listed (now : nat → Time) (es es' : Endpoints)
    (newEps : list ptr) (a : ptr) (ep ep' : Endpoint) :
  allocated (store es) (eps es) →
  allocated (store es) newEps →
  newEps ≠ [] →
  SyncEndpoints now es newEps = Some es' →
  a ∈ eps es → store es !! a = Some ep →
  store es' !! a = Some ep' → isDeleted ep' = false →
  isDeleted ep = false
  ∧ ∃ u o, u ∈ newEps ∧ store es !! u = Some o ∧ EqualsByID ep o = true.
Proof.
  intros Hal Hnew Hne Hrun Hin Ha Ha' Hlive'. unfold SyncEndpoints in Hrun.
  destruct newEps as [| u0 rest]; [congruence |].
  destruct (sync_mark_spec now (u0 :: rest) (eps es) 0%nat (store es) Hal Hnew)
    as (h & Hmark & _ & HB & HC).
  rewrite Hmark in Hrun. simpl in Hrun.
  assert (Hdead : ∀ e1, h !! a = Some e1 → isDeleted e1 = true → False).
  { intros e1 H1 Hd.
    destruct (sync_update_time (u0 :: rest) (mkEndpoints h (eps es)) es' Hrun a e1 H1)
      as (e2 & H2 & _ & Hd2).
    rewrite Ha' in H2. inversion H2; subst e2.
    unfold isDeleted in *. rewrite Hd2 in Hlive'. congruence. }
  destruct (isDeleted ep) eqn:Hd.
  - exfalso. destruct (HB a ep Ha) as [Hs | (_ & Hl & _)]; [| congruence].
    apply (Hdead ep Hs Hd).
  - split; [reflexivity |].
    destruct (sync_found_spec (store es) a ep (u0 :: rest) Ha Hnew)
      as [[_ Hnone] | [_ Hfound]]; [| exact Hfound].
    exfalso. destruct (HC a ep Hin Ha Hd Hnone) as [j Hj].
    apply (Hdead _ Hj). reflexivity.
Qed.

Lemma SyncEndpoints_survivors_are_listed_witness :
  allocated (store sync_table) (eps sync_table)
  ∧ allocated (store sync_table) [2%nat]
  ∧ ∃ u o, u ∈ [2%nat] ∧ store sync_table !! u = Some o
           ∧ EqualsByID tracked_without_pod o = true.
Proof.
  split; [exact (proj1 sync_table_allocated) |].
  split; [exact (proj2 sync_table_allocated) |].
  assert (Hin : 1%nat ∈ eps sync_table) by left.
  assert (Hrun : SyncEndpoints sync_clock sync_table [2%nat]
                 = Some (mkEndpoints
                           {[ 1%nat := SetFrom tracked_without_pod update_with_pod;
                              2%nat := update_with_pod;
                              3%nat := set_Deleted (Some 1000) other_endpoint ]}
                           [1%nat; 3%nat])) by (vm_compute; reflexivity).
  apply (proj2 (SyncEndpoints_survivors_are_listed sync_clock sync_table _ [2%nat] 1%nat
                  tracked_without_pod (SetFrom tracked_without_pod update_with_pod)
                  (proj1 sync_table_allocated) (proj2 sync_table_allocated)
                  ltac:(discriminate) Hrun Hin eq_refl eq_refl eq_refl)).
Defined.
